(** * A hierarchical state machine engine (hsm.c / hsm.h)

    Shallow embedding of the event queue and of the state machine of
    [src/src/hsm.c], and the properties of its specification.

    Conventions of the embedding:
    - [uint8_t] and [uint16_t] values are integers of [Z]; a value stored
      into a [uint8_t] object goes through [u8] (reduction modulo 256),
      while arithmetic inside an expression is the promoted [int]
      arithmetic of C and is left unreduced;
    - an array is a list, read with [!!] and written with [<[ _ := _ ]>];
      an access outside the array has no defined behaviour in C and is the
      outcome [OutOfBounds] here;
    - a pointer to a [state_t] is an element of a type [State] with
      decidable equality; the [parent] and [handler] members, which are
      [const], are two functions on [State];
    - the handlers are code of the application: a handler is a function on
      the memory of the program, and the engine records in a log every call
      it makes out of the module (handler calls, interrupt masking) and
      every push it makes on the queue of the machine. *)

From Stdlib Require Import ZArith Lia Bool List.
From stdpp Require Import base list.

Local Open Scope Z_scope.

(** ** Events and outcomes *)

(** [typedef uint16_t event_t] *)
Abbreviation event_t := Z.

(** [enum hsm_sys_event_enum] *)
Definition HSM_INITIAL : event_t := 0.
Definition HSM_ON_ENTRY : event_t := 1.
Definition HSM_ON_EXIT : event_t := 2.
Definition HSM_USER_START : event_t := 3.

(** [enum eventQueueError_enum] *)
Inductive eventQueueError_t : Type := QUEUE_OK | QUEUE_FULL | QUEUE_EMPTY.

#[global] Instance eventQueueError_eq_dec : EqDecision eventQueueError_t.
Proof. solve_decision. Defined.

(** Outcome of a piece of code: a result, an access outside an array, or a
    loop of the model that ran longer than the fuel it was given. *)
Inductive res (A : Type) : Type :=
| Ret (a : A)
| OutOfBounds
| OutOfFuel.

Arguments Ret {A} a.
Arguments OutOfBounds {A}.
Arguments OutOfFuel {A}.

(** Conversion to [uint8_t]. *)
Definition u8 (z : Z) : Z := z mod 256.

(** ** The event queue *)

Module Queue.

(** [struct eventQueue_struct] *)
Record eventQueue_t : Type := mkQueue {
  queue : list event_t;
  length : Z;
  head : Z;
  tail : Z;
  full : bool;
  empty : bool
}.

Definition set_queue (b : list event_t) (q : eventQueue_t) : eventQueue_t :=
  mkQueue b (length q) (head q) (tail q) (full q) (empty q).
Definition set_head (h : Z) (q : eventQueue_t) : eventQueue_t :=
  mkQueue (queue q) (length q) h (tail q) (full q) (empty q).
Definition set_tail (t : Z) (q : eventQueue_t) : eventQueue_t :=
  mkQueue (queue q) (length q) (head q) t (full q) (empty q).
Definition set_full (b : bool) (q : eventQueue_t) : eventQueue_t :=
  mkQueue (queue q) (length q) (head q) (tail q) b (empty q).
Definition set_empty (b : bool) (q : eventQueue_t) : eventQueue_t :=
  mkQueue (queue q) (length q) (head q) (tail q) (full q) b.

(** [buffer[i]] as an rvalue. *)
Definition load (buffer : list event_t) (i : Z) : res event_t :=
  if 0 <=? i then
    match buffer !! Z.to_nat i with
    | Some e => Ret e
    | None => OutOfBounds
    end
  else OutOfBounds.

(** [buffer[i] = e] *)
Definition store (buffer : list event_t) (i : Z) (e : event_t) : res (list event_t) :=
  if (0 <=? i) && (i <? Z.of_nat (List.length buffer))
  then Ret (<[Z.to_nat i := e]> buffer)
  else OutOfBounds.

(** [initEventQueue]: every member of the structure is overwritten. *)
Definition initEventQueue (buffer : list event_t) (len : Z) : eventQueue_t :=
  {| queue := buffer; length := len; head := 0; tail := 0;
     full := false; empty := true |}.

(** [getEvent]: the third component of the result is the object [*event]
    after the call, which is left as it was when the queue is empty. *)
Definition getEvent (q : eventQueue_t) (event : event_t)
  : res (eventQueueError_t * eventQueue_t * event_t) :=
  if negb (empty q) then
    match load (queue q) (tail q) with
    | Ret e =>
        let q := set_full false q in
        let q := set_tail (u8 (if tail q <? length q - 1 then tail q + 1 else 0)) q in
        let q := set_empty (if tail q =? head q then true else false) q in
        Ret (QUEUE_OK, q, e)
    | OutOfBounds => OutOfBounds
    | OutOfFuel => OutOfFuel
    end
  else Ret (QUEUE_EMPTY, q, event).

(** [putEvent] *)
Definition putEvent (q : eventQueue_t) (event : event_t)
  : res (eventQueueError_t * eventQueue_t) :=
  if negb (full q) then
    match store (queue q) (head q) event with
    | Ret b =>
        let q := set_queue b q in
        let q := set_empty false q in
        let q := set_head (u8 (if head q <? length q - 1 then head q + 1 else 0)) q in
        let q := set_full (if tail q =? head q then true else false) q in
        Ret (QUEUE_OK, q)
    | OutOfBounds => OutOfBounds
    | OutOfFuel => OutOfFuel
    end
  else Ret (QUEUE_FULL, q).

(** *** Abstraction of a queue: the events it holds, oldest first *)

(** The index after [i] in a ring of [len] cells. *)
Definition ring_next (len i : Z) : Z := if i <? len - 1 then i + 1 else 0.

(** Number of steps round the ring from index [i] to index [j]. *)
Definition ring_dist (len i j : Z) : Z := if i <=? j then j - i else len - i + j.

(** Number of events held. *)
Definition count (q : eventQueue_t) : nat :=
  Z.to_nat (if full q then length q else ring_dist (length q) (tail q) (head q)).

(** The [n] cells met from index [i] on, going round the ring. *)
Fixpoint walk (buffer : list event_t) (len i : Z) (n : nat) : list event_t :=
  match n with
  | O => []
  | S n' => default 0 (buffer !! Z.to_nat i) :: walk buffer len (ring_next len i) n'
  end.

Definition contents (q : eventQueue_t) : list event_t :=
  walk (queue q) (length q) (tail q) (count q).

(** Well-formed queues: a capacity that fits [uint8_t] and the buffer,
    indices inside the ring, and flags that agree with the indices. *)
Record wf (q : eventQueue_t) : Prop := mkWf {
  wf_length : 1 <= length q <= 255;
  wf_buffer : length q <= Z.of_nat (List.length (queue q));
  wf_head : 0 <= head q < length q;
  wf_tail : 0 <= tail q < length q;
  wf_eq : head q = tail q -> xorb (full q) (empty q) = true;
  wf_ne : head q <> tail q -> full q = false /\ empty q = false
}.

(** The invariant of the data model: the two flags are never both set. *)
Definition flags_ok (q : eventQueue_t) : Prop :=
  ~ (full q = true /\ empty q = true).

(** *** Sequences of operations, and the bounded FIFO they should behave as *)

Inductive op : Type :=
| Push (e : event_t)
| Pop.

(** What the caller of an operation observes. *)
Inductive obs : Type :=
| Pushed (r : eventQueueError_t)
| Popped (r : eventQueueError_t) (e : option event_t).

(** One operation of the code. *)
Definition step (q : eventQueue_t) (o : op) : res (obs * eventQueue_t) :=
  match o with
  | Push e =>
      match putEvent q e with
      | Ret (r, q') => Ret (Pushed r, q')
      | OutOfBounds => OutOfBounds
      | OutOfFuel => OutOfFuel
      end
  | Pop =>
      match getEvent q 0 with
      | Ret (QUEUE_OK, q', e) => Ret (Popped QUEUE_OK (Some e), q')
      | Ret (r, q', _) => Ret (Popped r None, q')
      | OutOfBounds => OutOfBounds
      | OutOfFuel => OutOfFuel
      end
  end.

Fixpoint run (q : eventQueue_t) (ops : list op) : res (list obs * eventQueue_t) :=
  match ops with
  | [] => Ret ([], q)
  | o :: ops' =>
      match step q o with
      | Ret (x, q') =>
          match run q' ops' with
          | Ret (xs, q'') => Ret (x :: xs, q'')
          | OutOfBounds => OutOfBounds
          | OutOfFuel => OutOfFuel
          end
      | OutOfBounds => OutOfBounds
      | OutOfFuel => OutOfFuel
      end
  end.

(** The specification's queue: a list of at most [cap] events, pushed at
    the back and popped at the front. *)
Definition fifo_step (cap : nat) (l : list event_t) (o : op) : obs * list event_t :=
  match o with
  | Push e =>
      if (List.length l <? cap)%nat then (Pushed QUEUE_OK, l ++ [e])
      else (Pushed QUEUE_FULL, l)
  | Pop =>
      match l with
      | [] => (Popped QUEUE_EMPTY None, [])
      | e :: l' => (Popped QUEUE_OK (Some e), l')
      end
  end.

Fixpoint fifo_run (cap : nat) (l : list event_t) (ops : list op) : list obs * list event_t :=
  match ops with
  | [] => ([], l)
  | o :: ops' =>
      let '(x, l') := fifo_step cap l o in
      let '(xs, l'') := fifo_run cap l' ops' in
      (x :: xs, l'')
  end.

End Queue.

(** ** The state machine *)

Module Hsm.

(** Depth of the two scratch arrays, [up_path[16]] and [down_path[16]]. *)
Definition PATH_DEPTH : Z := 16.

(** Bound on the iterations of a loop of [setState] in the model: each of
    its loops is driven by an 8-bit counter. *)
Definition LOOP_FUEL : nat := 256.

Section Engine.

Variable State : Type.
Context `{EqDecision State}.
(** Memory of the application, which only the handlers read and write. *)
Variable App : Type.

(** [struct hsm_struct]. The machine owns its queue: the queue that
    [initHSM] binds is held by value (one queue serves one machine). *)
Record hsm_t : Type := mkHsm {
  currentState : State;
  eventQueue : Queue.eventQueue_t
}.

(** The memory the engine works on: the machine, the two file-scope scratch
    arrays, and the memory of the application. *)
Record world : Type := mkWorld {
  hsm : hsm_t;
  up_path : list State;
  down_path : list State;
  app : App
}.

(** What the log of a run records: the calls out of the module, and the
    pushes on the queue of the machine with the status each returned. *)
Inductive call : Type :=
| Handler (s : State) (e : event_t)
| DisableIrq
| EnableIrq
| PutEvent (e : event_t) (r : eventQueueError_t).

Inductive path_array : Type := UpPath | DownPath.

Definition set_currentState (s : State) (w : world) : world :=
  mkWorld (mkHsm s (eventQueue (hsm w))) (up_path w) (down_path w) (app w).
Definition set_eventQueue (q : Queue.eventQueue_t) (w : world) : world :=
  mkWorld (mkHsm (currentState (hsm w)) q) (up_path w) (down_path w) (app w).
Definition set_hsm (m : hsm_t) (w : world) : world :=
  mkWorld m (up_path w) (down_path w) (app w).

Definition path (a : path_array) (w : world) : list State :=
  match a with UpPath => up_path w | DownPath => down_path w end.
Definition set_path (a : path_array) (l : list State) (w : world) : world :=
  match a with
  | UpPath => mkWorld (hsm w) l (down_path w) (app w)
  | DownPath => mkWorld (hsm w) (up_path w) l (app w)
  end.

(** [const struct state_struct * const parent] *)
Variable parent : State -> State.
(** [stateHandler_t handler]: what calling the handler of a state with an
    event does to the memory. *)
Variable handler : State -> event_t -> world -> world.

(** *** Computations on the memory that log the calls they make *)

Definition M (A : Type) : Type := world -> res (A * world * list call).

Definition ret {A : Type} (a : A) : M A := fun w => Ret (a, w, []).

(** An outcome, with the calls [l] made before it. *)
Definition logged {A : Type} (l : list call) (r : res (A * world * list call))
  : res (A * world * list call) :=
  match r with
  | Ret (a, w, l') => Ret (a, w, l ++ l')
  | OutOfBounds => OutOfBounds
  | OutOfFuel => OutOfFuel
  end.

Definition bind {A B : Type} (m : M A) (k : A -> M B) : M B := fun w =>
  match m w with
  | Ret (a, w1, l1) => logged l1 (k a w1)
  | OutOfBounds => OutOfBounds
  | OutOfFuel => OutOfFuel
  end.

Notation "x <- m ;; k" := (bind m (fun x => k))
  (at level 100, m at next level, right associativity).
Notation "m ;; k" := (bind m (fun _ => k))
  (at level 100, right associativity).

Definition out_of_fuel {A : Type} : M A := fun _ => OutOfFuel.

(** [hsm->currentState] as an rvalue. *)
Definition get_currentState : M State := fun w => Ret (currentState (hsm w), w, []).

(** [hsm->currentState = s] *)
Definition put_currentState (s : State) : M unit := fun w =>
  Ret (tt, set_currentState s w, []).

(** [a[i]] as an rvalue, for one of the two scratch arrays. *)
Definition read (a : path_array) (i : Z) : M State := fun w =>
  if (0 <=? i) && (i <? PATH_DEPTH) then
    match path a w !! Z.to_nat i with
    | Some s => Ret (s, w, [])
    | None => OutOfBounds
    end
  else OutOfBounds.

(** [a[i] = s] *)
Definition write (a : path_array) (i : Z) (s : State) : M unit := fun w =>
  if (0 <=? i) && (i <? PATH_DEPTH) && (i <? Z.of_nat (List.length (path a w)))
  then Ret (tt, set_path a (<[Z.to_nat i := s]> (path a w)) w, [])
  else OutOfBounds.

(** [s->handler( e )] *)
Definition call_handler (s : State) (e : event_t) : M unit := fun w =>
  Ret (tt, handler s e w, [Handler s e]).

(** [__disable_irq()] and [__enable_irq()] *)
Definition disable_irq : M unit := fun w => Ret (tt, w, [DisableIrq]).
Definition enable_irq : M unit := fun w => Ret (tt, w, [EnableIrq]).

(** [putEvent( hsm->eventQueue, e )] *)
Definition put_event (e : event_t) : M eventQueueError_t := fun w =>
  match Queue.putEvent (eventQueue (hsm w)) e with
  | Ret (r, q) => Ret (r, set_eventQueue q w, [PutEvent e r])
  | OutOfBounds => OutOfBounds
  | OutOfFuel => OutOfFuel
  end.

(** [getEvent( hsm->eventQueue, &event )]: the status and the new value of
    the object [event]. *)
Definition get_event (event : event_t) : M (eventQueueError_t * event_t) := fun w =>
  match Queue.getEvent (eventQueue (hsm w)) event with
  | Ret (r, q, e) => Ret ((r, e), set_eventQueue q w, [])
  | OutOfBounds => OutOfBounds
  | OutOfFuel => OutOfFuel
  end.

(** *** The functions of hsm.c *)

(** [sendEvent]: the status that [putEvent] returns is not used. *)
Definition sendEvent (event : event_t) : M unit :=
  disable_irq ;;
  put_event event ;;
  enable_irq.

(** [initHSM] *)
Definition initHSM (initialState : State) (q : Queue.eventQueue_t) : M unit :=
  put_currentState initialState ;;
  (fun w => Ret (tt, set_eventQueue q w, [])) ;;
  s <- get_currentState ;;
  call_handler s HSM_INITIAL.

(** The two loops of [setState] that go to the root:
    [while( a[cntr] != a[cntr]->parent ){ cntr++; a[cntr] = a[cntr-1]->parent; }] *)
Fixpoint climb (a : path_array) (fuel : nat) (cntr : Z) : M Z :=
  match fuel with
  | O => out_of_fuel
  | S fuel' =>
      s <- read a cntr ;;
      if decide (s <> parent s) then
        let cntr := u8 (cntr + 1) in
        p <- read a (cntr - 1) ;;
        write a cntr (parent p) ;;
        climb a fuel' cntr
      else ret cntr
  end.

(** The loop of [setState] that prunes the common ancestors; the result is
    [(curr_path_cntr, dest_path_cntr, no_entry, no_exit)]. *)
Fixpoint prune (fuel : nat) (curr_path_cntr dest_path_cntr : Z) (no_entry no_exit : bool)
  : M (Z * Z * bool * bool) :=
  match fuel with
  | O => out_of_fuel
  | S fuel' =>
      u <- read UpPath curr_path_cntr ;;
      d <- read DownPath dest_path_cntr ;;
      if decide (u = d) then
        if curr_path_cntr =? 0 then
          ret (curr_path_cntr, u8 (dest_path_cntr - 1), no_entry, true)
        else if dest_path_cntr =? 0 then
          ret (u8 (curr_path_cntr - 1), dest_path_cntr, true, no_exit)
        else
          prune fuel' (u8 (curr_path_cntr - 1)) (u8 (dest_path_cntr - 1)) no_entry no_exit
      else ret (curr_path_cntr, dest_path_cntr, no_entry, no_exit)
  end.

(** [while( i <= curr_path_cntr ){ up_path[i]->handler( HSM_ON_EXIT ); i--; }] *)
Fixpoint exit_loop (fuel : nat) (i curr_path_cntr : Z) : M unit :=
  match fuel with
  | O => out_of_fuel
  | S fuel' =>
      if i <=? curr_path_cntr then
        s <- read UpPath i ;;
        call_handler s HSM_ON_EXIT ;;
        exit_loop fuel' (u8 (i - 1)) curr_path_cntr
      else ret tt
  end.

(** [do{ i--; down_path[i]->handler( HSM_ON_ENTRY ); } while( i != 0 );] *)
Fixpoint entry_loop (fuel : nat) (i : Z) : M unit :=
  match fuel with
  | O => out_of_fuel
  | S fuel' =>
      let i := u8 (i - 1) in
      s <- read DownPath i ;;
      call_handler s HSM_ON_ENTRY ;;
      if negb (i =? 0) then entry_loop fuel' i else ret tt
  end.

(** [setState] *)
Definition setState (state : State) : M unit :=
  cur <- get_currentState ;;
  if decide (cur = state) then
    call_handler state HSM_ON_EXIT ;;
    call_handler state HSM_ON_ENTRY ;;
    sendEvent HSM_INITIAL
  else
    cur <- get_currentState ;;
    write UpPath 0 cur ;;
    curr_path_cntr <- climb UpPath LOOP_FUEL 0 ;;
    write DownPath 0 state ;;
    dest_path_cntr <- climb DownPath LOOP_FUEL 0 ;;
    r <- prune LOOP_FUEL curr_path_cntr dest_path_cntr false false ;;
    let '(curr_path_cntr, dest_path_cntr, no_entry, no_exit) := r in
    (if eqb no_exit false then exit_loop LOOP_FUEL 0 curr_path_cntr else ret tt) ;;
    (if eqb no_entry false then entry_loop LOOP_FUEL (u8 (dest_path_cntr + 1)) else ret tt) ;;
    put_currentState state ;;
    sendEvent HSM_INITIAL.

(** [processHSM]: [currentEvent] is the local object of that name; the
    loop may run for ever, so the model takes the number of iterations it
    may make. *)
Fixpoint processHSM (fuel : nat) (currentEvent : event_t) : M unit :=
  match fuel with
  | O => out_of_fuel
  | S fuel' =>
      r <- get_event currentEvent ;;
      let '(status, currentEvent) := r in
      if decide (status <> QUEUE_EMPTY) then
        s <- get_currentState ;;
        call_handler s currentEvent ;;
        processHSM fuel' currentEvent
      else ret tt
  end.

(** *** The hierarchy, as the specification speaks of it *)

(** The chain of a state: the state, its parent, and so on up to the root,
    when the root is reached within [n] nodes. *)
Fixpoint chain (n : nat) (s : State) : option (list State) :=
  match n with
  | O => None
  | S n' =>
      if decide (s = parent s) then Some [s]
      else (fun l => s :: l) <$> chain n' (parent s)
  end.

(** [a] is an ancestor of [s]: another state, met when going up from [s]. *)
Definition ancestor (a s : State) : Prop :=
  a <> s /\ exists k : nat, Nat.iter k parent s = a.

(** The least common ancestor of two chains: the deepest node of the
    second chain that is also on the first. *)
Fixpoint lca (up down : list State) : option State :=
  match down with
  | [] => None
  | x :: down' => if decide (x ∈ up) then Some x else lca up down'
  end.

(** The nodes of a chain that lie strictly below [a], innermost first. *)
Fixpoint below (a : State) (l : list State) : list State :=
  match l with
  | [] => []
  | x :: l' => if decide (x = a) then [] else x :: below a l'
  end.

(** The exit actions and the entry actions the specification asks of a
    transition between two states whose chains are [up] and [down]. *)
Definition exit_path (up down : list State) : list State :=
  match lca up down with
  | Some a => below a up
  | None => up
  end.

Definition entry_path (up down : list State) : list State :=
  match lca up down with
  | Some a => rev (below a down)
  | None => rev down
  end.

(** The handler calls of a log. *)
Definition handler_calls (log : list call) : list (State * event_t) :=
  omap (fun c => match c with Handler s e => Some (s, e) | _ => None end) log.

(** The states on which a log calls the handler with event [e]. *)
Definition fired (e : event_t) (log : list call) : list State :=
  omap (fun c => match c with
                 | Handler s e' => if decide (e' = e) then Some s else None
                 | _ => None
                 end) log.

(** The memory after the handler calls [cs], made in that order. *)
Definition run_calls (cs : list (State * event_t)) (w : world) : world :=
  fold_left (fun w c => handler (fst c) (snd c) w) cs w.

(** The calls that the code makes in a general transition between two
    states whose chains are [up] and [down]: one exit action at most, on
    the first node of the exit path, then the entry actions. *)
Definition transition_calls (up down : list State) : list (State * event_t) :=
  map (fun x => (x, HSM_ON_EXIT)) (take 1 (exit_path up down)) ++
  map (fun x => (x, HSM_ON_ENTRY)) (entry_path up down).

(** The memory once both chains are in the scratch arrays. *)
Definition with_paths (up down : list State) (w : world) : world :=
  mkWorld (hsm w)
          (up ++ drop (List.length up) (up_path w))
          (down ++ drop (List.length down) (down_path w))
          (app w).

(** Exit and entry actions that do not themselves start a transition:
    they leave the scratch array [down_path] alone, and a well-formed queue
    well formed. *)
Definition quiet_actions : Prop :=
  forall (s : State) (e : event_t) (w : world),
    e = HSM_ON_EXIT \/ e = HSM_ON_ENTRY ->
    down_path (handler s e w) = down_path w /\
    (Queue.wf (eventQueue (hsm w)) -> Queue.wf (eventQueue (hsm (handler s e w)))).

(** Exit and entry actions that keep the memory of the engine in shape,
    whatever else they do (they may start a transition): the scratch array
    [down_path] keeps its cells, and a well-formed queue stays well
    formed. *)
Definition sound_actions : Prop :=
  forall (s : State) (e : event_t) (w : world),
    e = HSM_ON_EXIT \/ e = HSM_ON_ENTRY ->
    List.length (down_path (handler s e w)) = List.length (down_path w) /\
    (Queue.wf (eventQueue (hsm w)) -> Queue.wf (eventQueue (hsm (handler s e w)))).

(** The counters and flags that the pruning leaves, for two chains that
    are [u] and [d] followed by their longest common suffix. *)
Definition pruned (u d : list State) : Z * Z * bool * bool :=
  match u, d with
  | [], _ => (0, Z.of_nat (List.length d) - 1, false, true)
  | _, [] => (Z.of_nat (List.length u) - 1, 0, true, false)
  | _, _ => (Z.of_nat (List.length u) - 1, Z.of_nat (List.length d) - 1, false, false)
  end.

(** What [setState] does after the pruning, from the counters and flags
    [r] that the pruning left. *)
Definition after_pruning (state : State) (r : Z * Z * bool * bool) : M unit :=
  let '(curr_path_cntr, dest_path_cntr, no_entry, no_exit) := r in
  (if eqb no_exit false then exit_loop LOOP_FUEL 0 curr_path_cntr else ret tt) ;;
  (if eqb no_entry false then entry_loop LOOP_FUEL (u8 (dest_path_cntr + 1)) else ret tt) ;;
  put_currentState state ;;
  sendEvent HSM_INITIAL.

(** One dispatch after another until a pop reports that the queue is
    empty: [drains w l w'] when the loop started in [w] dispatches the
    events of [l], each to the state paired with it, and stops in [w']. *)
Inductive drains : world -> list (State * event_t) -> world -> Prop :=
| drains_stop (w : world) (q : Queue.eventQueue_t) (ev ev' : event_t) :
    Queue.getEvent (eventQueue (hsm w)) ev = Ret (QUEUE_EMPTY, q, ev') ->
    drains w [] w
| drains_step (w w' : world) (q : Queue.eventQueue_t) (ev e : event_t)
              (l : list (State * event_t)) :
    Queue.getEvent (eventQueue (hsm w)) ev = Ret (QUEUE_OK, q, e) ->
    drains (handler (currentState (hsm w)) e (set_eventQueue q w)) l w' ->
    drains w ((currentState (hsm w), e) :: l) w'.

End Engine.

Arguments currentState {State} _.
Arguments eventQueue {State} _.
Arguments mkHsm {State} _ _.
Arguments hsm {State App} _.
Arguments up_path {State App} _.
Arguments down_path {State App} _.
Arguments app {State App} _.
Arguments mkWorld {State App} _ _ _ _.
Arguments Handler {State} _ _.
Arguments DisableIrq {State}.
Arguments EnableIrq {State}.
Arguments PutEvent {State} _ _.
Arguments set_currentState {State App} _ _.
Arguments set_eventQueue {State App} _ _.
Arguments path {State App} _ _.
Arguments set_path {State App} _ _ _.
Arguments sendEvent {State App} _ _.
Arguments initHSM {State App} _ _ _ _.
Arguments setState {State _ App} _ _ _ _.
Arguments processHSM {State App} _ _ _ _.
Arguments climb {State _ App} _ _ _ _ _.
Arguments prune {State _ App} _ _ _ _ _ _.
Arguments exit_loop {State App} _ _ _ _ _.
Arguments entry_loop {State App} _ _ _ _.
Arguments chain {State _} _ _ _.
Arguments ancestor {State} _ _ _.
Arguments lca {State _} _ _.
Arguments below {State _} _ _.
Arguments exit_path {State _} _ _.
Arguments entry_path {State _} _ _.
Arguments handler_calls {State} _.
Arguments fired {State} _ _.
Arguments run_calls {State App} _ _ _.
Arguments quiet_actions {State App} _.
Arguments sound_actions {State App} _.
Arguments pruned {State} _ _.
Arguments after_pruning {State App} _ _ _ _.
Arguments transition_calls {State _} _ _.
Arguments with_paths {State App} _ _ _.
Arguments ret {State App A} _ _.
Arguments bind {State App A B} _ _ _.
Arguments logged {State App A} _ _.
Arguments read {State App} _ _ _.
Arguments write {State App} _ _ _ _.
Arguments call_handler {State App} _ _ _ _.
Arguments get_currentState {State App} _.
Arguments put_currentState {State App} _ _.
Arguments put_event {State App} _ _.
Arguments get_event {State App} _ _.
Arguments disable_irq {State App} _.
Arguments enable_irq {State App} _.
Arguments set_hsm {State App} _ _.
Arguments drains {State App} _ _ _ _.

End Hsm.

(** ** A hierarchy to run the engine on

    [Root] is the root; [A] and [B] are its children; [A1] and [A2] are the
    children of [A]; [A11] is the child of [A1]. *)

Module Demo.

Inductive state : Type := Root | A | A1 | A2 | A11 | B.

#[global] Instance state_eq_dec : EqDecision state.
Proof. solve_decision. Defined.

Definition parent (s : state) : state :=
  match s with
  | Root => Root
  | A => Root
  | B => Root
  | A1 => A
  | A2 => A
  | A11 => A1
  end.

(** Handlers that do nothing. *)
Definition quiet (s : state) (e : event_t) (w : Hsm.world state unit) : Hsm.world state unit := w.

(** The first user event. *)
Definition GO : event_t := HSM_USER_START.

(** Handlers that do nothing, but for the one of [A1], which answers the
    event [GO] with [setState( hsm, B )]. *)
Definition reacting (s : state) (e : event_t) (w : Hsm.world state unit) : Hsm.world state unit :=
  match s with
  | A1 =>
      if e =? GO then
        match Hsm.setState parent quiet B w with
        | Ret (_, w', _) => w'
        | _ => w
        end
      else w
  | _ => w
  end.

(** A machine in state [s], with a queue of capacity 4 that holds the
    events [evs]. *)
Definition pushes (q : Queue.eventQueue_t) (evs : list event_t) : Queue.eventQueue_t :=
  fold_left (fun q e => match Queue.putEvent q e with Ret (_, q') => q' | _ => q end) evs q.

Definition machine (s : state) (evs : list event_t) : Hsm.world state unit :=
  Hsm.mkWorld
    (Hsm.mkHsm s (pushes (Queue.initEventQueue [0; 0; 0; 0] 4) evs))
    (replicate 16 Root) (replicate 16 Root) tt.

End Demo.

(** ** More hierarchies and handlers to run the engine on *)

(** Two hierarchies: [K1] under the root [R1], and [K2] under the root
    [R2]. *)
Module Forest.

Inductive state : Type := R1 | K1 | R2 | K2.

#[global] Instance state_eq_dec : EqDecision state.
Proof. solve_decision. Defined.

Definition parent (s : state) : state :=
  match s with
  | R1 => R1
  | K1 => R1
  | R2 => R2
  | K2 => R2
  end.

Definition quiet (s : state) (e : event_t) (w : Hsm.world state unit) : Hsm.world state unit := w.

Definition machine (s : state) : Hsm.world state unit :=
  Hsm.mkWorld (Hsm.mkHsm s (Queue.initEventQueue [0; 0; 0; 0] 4))
              (replicate 16 R1) (replicate 16 R1) tt.

End Forest.

(** A hierarchy of any depth: the states are the natural numbers, 0 is
    the root and [n] is the parent of [n + 1]. *)
Module Tower.

Definition parent (n : nat) : nat := Nat.pred n.

Definition quiet (s : nat) (e : event_t) (w : Hsm.world nat unit) : Hsm.world nat unit := w.

Definition machine (s : nat) : Hsm.world nat unit :=
  Hsm.mkWorld (Hsm.mkHsm s (Queue.initEventQueue [0; 0; 0; 0] 4))
              (replicate 16 0%nat) (replicate 16 0%nat) tt.

End Tower.

(** Handlers that answer every event with [sendEvent( hsm, event )]. *)
Module Busy.

Definition echo (s : Demo.state) (e : event_t) (w : Hsm.world Demo.state unit)
  : Hsm.world Demo.state unit :=
  match Hsm.sendEvent e w with
  | Ret (_, w', _) => w'
  | _ => w
  end.

End Busy.

(** Handlers that note every call in the memory of the application, and
    do nothing else, but for the one of [A1], which answers [HSM_ON_ENTRY]
    with [setState( hsm, A2 )]: an entry action that starts a transition. *)
Module Reentry.

Definition noting (s : Demo.state) (e : event_t)
    (w : Hsm.world Demo.state (list (Demo.state * event_t)))
  : Hsm.world Demo.state (list (Demo.state * event_t)) :=
  Hsm.mkWorld (Hsm.hsm w) (Hsm.up_path w) (Hsm.down_path w) (Hsm.app w ++ [(s, e)]).

Definition reentering (s : Demo.state) (e : event_t)
    (w : Hsm.world Demo.state (list (Demo.state * event_t)))
  : Hsm.world Demo.state (list (Demo.state * event_t)) :=
  match s with
  | Demo.A1 =>
      if e =? HSM_ON_ENTRY then
        match Hsm.setState Demo.parent noting Demo.A2 (noting s e w) with
        | Ret (_, w', _) => w'
        | _ => noting s e w
        end
      else noting s e w
  | _ => noting s e w
  end.

(** A machine in state [s], with an empty queue of capacity 4, and no call
    noted. *)
Definition machine (s : Demo.state) : Hsm.world Demo.state (list (Demo.state * event_t)) :=
  Hsm.mkWorld (Hsm.mkHsm s (Queue.initEventQueue [0; 0; 0; 0] 4))
              (replicate 16 Demo.Root) (replicate 16 Demo.Root) [].

End Reentry.

(** * Properties *)

(** ** Arithmetic of the 8-bit counters *)

Lemma u8_small (z : Z) : 0 <= z < 256 -> u8 z = z.
Proof. intros Hz. unfold u8. now apply Z.mod_small. Qed.

Lemma u8_minus_one : u8 (0 - 1) = 255.
Proof. reflexivity. Qed.

(** Case analysis on every comparison of integers in the goal. *)
Ltac zcases :=
  repeat match goal with
  | |- context [ (?a <? ?b)%Z ] => destruct (Z.ltb_spec a b)
  | |- context [ (?a <=? ?b)%Z ] => destruct (Z.leb_spec a b)
  | |- context [ (?a =? ?b)%Z ] => destruct (Z.eqb_spec a b)
  end.

(** ** The event queue *)

Section QueueFacts.

Import Queue.

Lemma ring_next_range (len i : Z) :
  0 <= i < len -> 0 <= ring_next len i < len.
Proof. intros Hi. unfold ring_next. zcases; lia. Qed.

Lemma ring_dist_next (len i j : Z) :
  0 <= i < len -> 0 <= j < len -> i <> j ->
  ring_dist len (ring_next len i) j = ring_dist len i j - 1.
Proof. intros Hi Hj Hne. unfold ring_dist, ring_next. zcases; lia. Qed.

Lemma ring_dist_zero (len i j : Z) :
  0 <= i < len -> 0 <= j < len -> ring_dist len i j = 0 -> i = j.
Proof. unfold ring_dist. intros Hi Hj. zcases; lia. Qed.

Lemma ring_dist_range (len i j : Z) :
  0 <= i < len -> 0 <= j < len -> 0 <= ring_dist len i j < len.
Proof. unfold ring_dist. intros Hi Hj. zcases; lia. Qed.

Lemma length_walk (buffer : list event_t) (len i : Z) (n : nat) :
  List.length (walk buffer len i n) = n.
Proof.
  revert i. induction n as [|n IH]; intros i; simpl; [reflexivity|].
  now rewrite IH.
Qed.

(** A store at a cell that a walk does not reach leaves the walk as it was. *)
Lemma walk_store_far (n : nat) :
  forall (buffer : list event_t) (len i h : Z) (e : event_t),
    0 <= i < len -> 0 <= h < len ->
    Z.of_nat n <= ring_dist len i h ->
    walk (<[Z.to_nat h := e]> buffer) len i n = walk buffer len i n.
Proof.
  induction n as [|n IH]; intros buffer len i h e Hi Hh Hn; simpl; [reflexivity|].
  assert (Hne : i <> h).
  { intros ->. unfold ring_dist in Hn. revert Hn. zcases; lia. }
  rewrite list_lookup_insert_ne by lia.
  f_equal. apply IH; [now apply ring_next_range | assumption |].
  rewrite ring_dist_next by assumption. lia.
Qed.

(** A store at the cell where a walk stops adds the event at its end. *)
Lemma walk_store_at (n : nat) :
  forall (buffer : list event_t) (len i h : Z) (e : event_t),
    0 <= i < len -> 0 <= h < len ->
    h < Z.of_nat (List.length buffer) ->
    Z.of_nat n = ring_dist len i h ->
    walk (<[Z.to_nat h := e]> buffer) len i (S n) = walk buffer len i n ++ [e].
Proof.
  induction n as [|n IH]; intros buffer len i h e Hi Hh Hb Hn.
  - assert (i = h) as -> by (apply (ring_dist_zero len); [assumption..|lia]).
    simpl. rewrite list_lookup_insert_eq by lia. reflexivity.
  - assert (Hne : i <> h).
    { intros ->. unfold ring_dist in Hn. revert Hn. zcases; lia. }
    change (walk (<[Z.to_nat h:=e]> buffer) len i (S (S n)))
      with (default 0 (<[Z.to_nat h:=e]> buffer !! Z.to_nat i)
            :: walk (<[Z.to_nat h:=e]> buffer) len (ring_next len i) (S n)).
    rewrite list_lookup_insert_ne by lia.
    rewrite IH; [reflexivity | now apply ring_next_range | assumption..|].
    rewrite ring_dist_next by assumption. lia.
Qed.

Lemma putEvent_full (q : eventQueue_t) (e : event_t) :
  full q = true -> putEvent q e = Ret (QUEUE_FULL, q).
Proof. intros Hf. unfold putEvent. now rewrite Hf. Qed.

Lemma getEvent_empty (q : eventQueue_t) (ev : event_t) :
  empty q = true -> getEvent q ev = Ret (QUEUE_EMPTY, q, ev).
Proof. intros He. unfold getEvent. now rewrite He. Qed.

Lemma wf_initEventQueue (buffer : list event_t) (len : Z) :
  1 <= len <= 255 -> len <= Z.of_nat (List.length buffer) ->
  wf (initEventQueue buffer len).
Proof.
  intros Hl Hb. constructor; simpl; try lia; try reflexivity; congruence.
Qed.

Lemma contents_initEventQueue (buffer : list event_t) (len : Z) :
  contents (initEventQueue buffer len) = [].
Proof. reflexivity. Qed.

Lemma wf_count (q : eventQueue_t) :
  wf q -> (count q <= Z.to_nat (length q))%nat.
Proof.
  intros [Hl Hb Hh Ht Heq Hne]. unfold count.
  destruct (full q); [lia|].
  pose proof (ring_dist_range (length q) (tail q) (head q) Ht Hh). lia.
Qed.

Lemma wf_full_count (q : eventQueue_t) :
  wf q -> (full q = true <-> count q = Z.to_nat (length q)).
Proof.
  intros [Hl Hb Hh Ht Heq Hne]. unfold count.
  destruct (full q); split; try reflexivity; try discriminate.
  pose proof (ring_dist_range (length q) (tail q) (head q) Ht Hh). lia.
Qed.

Lemma wf_empty_count (q : eventQueue_t) :
  wf q -> (empty q = true <-> count q = 0%nat).
Proof.
  intros [Hl Hb Hh Ht Heq Hne]. unfold count. split.
  - intros He. destruct (Z.eq_dec (head q) (tail q)) as [E|E].
    + specialize (Heq E). rewrite He in Heq. destruct (full q); [discriminate|].
      unfold ring_dist. rewrite E. zcases; lia.
    + destruct (Hne E) as [_ Hn]. congruence.
  - intros Hc. destruct (full q) eqn:Hf; [lia|].
    assert (E : tail q = head q).
    { apply (ring_dist_zero (length q)); try assumption.
      pose proof (ring_dist_range (length q) (tail q) (head q) Ht Hh). lia. }
    symmetry in E. specialize (Heq E).
    destruct (empty q); [reflexivity | discriminate].
Qed.

(** A push on a queue that is not full: the event goes to the back. *)
Lemma putEvent_ok (q : eventQueue_t) (e : event_t) :
  wf q -> full q = false ->
  exists q', putEvent q e = Ret (QUEUE_OK, q') /\ wf q' /\
             length q' = length q /\ contents q' = contents q ++ [e].
Proof.
  intros Hwf Hf. pose proof (wf_empty_count q Hwf) as Hec.
  destruct Hwf as [Hl Hb Hh Ht Heq Hne].
  unfold putEvent, store. rewrite Hf. simpl.
  assert (Hin : (0 <=? head q) && (head q <? Z.of_nat (List.length (queue q))) = true).
  { apply andb_true_intro; split; [apply Z.leb_le | apply Z.ltb_lt]; lia. }
  rewrite Hin. eexists. split; [reflexivity|].
  fold (ring_next (length q) (head q)).
  pose proof (ring_next_range (length q) (head q) Hh) as Hr.
  rewrite (u8_small (ring_next (length q) (head q))) by lia.
  split; [|split].
  - constructor; simpl; try assumption.
    + rewrite length_insert. assumption.
    + intros E. rewrite <- E. rewrite Z.eqb_refl. reflexivity.
    + intros E. split; [|reflexivity].
      destruct (Z.eqb_spec (tail q) (ring_next (length q) (head q))); congruence.
  - reflexivity.
  - unfold contents, count. simpl. rewrite Hf.
    assert (Hd : Z.to_nat (if if tail q =? ring_next (length q) (head q) then true else false
                  then length q
                  else ring_dist (length q) (tail q) (ring_next (length q) (head q)))
            = S (Z.to_nat (ring_dist (length q) (tail q) (head q)))).
    { assert (Hx : head q = tail q -> empty q = true).
      { intros E. specialize (Heq E). rewrite Hf in Heq. exact Heq. }
      unfold ring_dist, ring_next in *. zcases; lia. }
    rewrite Hd. apply walk_store_at; try assumption; [lia|].
    pose proof (ring_dist_range (length q) (tail q) (head q) Ht Hh). lia.
Qed.

(** A pop on a queue that is not empty: the event comes from the front. *)
Lemma getEvent_ok (q : eventQueue_t) (ev : event_t) :
  wf q -> empty q = false ->
  exists q' e, getEvent q ev = Ret (QUEUE_OK, q', e) /\ wf q' /\
               length q' = length q /\ contents q = e :: contents q'.
Proof.
  intros Hwf He.
  destruct Hwf as [Hl Hb Hh Ht Heq Hne].
  unfold getEvent, load. rewrite He. simpl.
  destruct (Z.leb_spec 0 (tail q)) as [_|]; [|lia].
  destruct (queue q !! Z.to_nat (tail q)) as [x|] eqn:Hx.
  2:{ apply lookup_ge_None in Hx. lia. }
  eexists _, x. split; [reflexivity|].
  fold (ring_next (length q) (tail q)).
  pose proof (ring_next_range (length q) (tail q) Ht) as Hr.
  rewrite (u8_small (ring_next (length q) (tail q))) by lia.
  split; [|split].
  - constructor; simpl; try assumption.
    + intros E. rewrite <- E. rewrite Z.eqb_refl. reflexivity.
    + intros E. split; [reflexivity|].
      destruct (Z.eqb_spec (ring_next (length q) (tail q)) (head q)); congruence.
  - reflexivity.
  - unfold contents, count. simpl.
    assert (Hd : Z.to_nat (if full q then length q
                           else ring_dist (length q) (tail q) (head q))
            = S (Z.to_nat (ring_dist (length q) (ring_next (length q) (tail q)) (head q)))).
    { destruct (full q) eqn:Hf.
      - assert (E : head q = tail q).
        { destruct (Z.eq_dec (head q) (tail q)) as [E|E]; [exact E|].
          destruct (Hne E). congruence. }
        rewrite E. unfold ring_dist, ring_next. zcases; lia.
      - assert (E : head q <> tail q).
        { intros E. specialize (Heq E). rewrite He in Heq. discriminate. }
        rewrite ring_dist_next by (assumption || congruence).
        pose proof (ring_dist_range (length q) (tail q) (head q) Ht Hh).
        assert (ring_dist (length q) (tail q) (head q) <> 0).
        { intros Z0. apply E. symmetry.
          now apply (ring_dist_zero (length q)). }
        lia. }
    rewrite Hd. simpl. rewrite Hx. reflexivity.
Qed.

End QueueFacts.

Section QueueRuns.

Import Queue.

Lemma contents_nil_count (q : eventQueue_t) : count q = 0%nat -> contents q = [].
Proof. unfold contents. now intros ->. Qed.

Lemma length_contents (q : eventQueue_t) : List.length (contents q) = count q.
Proof. apply length_walk. Qed.

(** The ring buffer behaves as the bounded list of the specification. *)
Lemma run_refines (ops : list op) :
  forall q : eventQueue_t,
    wf q ->
    exists q',
      run q ops = Ret (fst (fifo_run (Z.to_nat (length q)) (contents q) ops), q')
      /\ wf q' /\ length q' = length q
      /\ contents q' = snd (fifo_run (Z.to_nat (length q)) (contents q) ops).
Proof.
  induction ops as [|o ops IH]; intros q Hwf.
  - exists q. simpl. auto.
  - destruct o as [e|].
    + destruct (full q) eqn:Hf.
      * assert (Hc : count q = Z.to_nat (length q)) by now apply wf_full_count.
        destruct (IH q Hwf) as (q' & Hrun & Hwf' & Hlen & Hcont).
        exists q'. cbn [run step fifo_run fifo_step].
        rewrite putEvent_full by assumption. rewrite Hrun.
        rewrite length_contents, Hc, Nat.ltb_irrefl.
        destruct (fifo_run (Z.to_nat (length q)) (contents q) ops) as [xs l'].
        simpl in *. auto.
      * destruct (putEvent_ok q e Hwf Hf) as (q1 & Hput & Hwf1 & Hlen1 & Hcont1).
        destruct (IH q1 Hwf1) as (q' & Hrun & Hwf' & Hlen & Hcont).
        exists q'. cbn [run step fifo_run fifo_step].
        rewrite Hput, Hrun, Hlen1, Hcont1 in *.
        assert (Hlt : (List.length (contents q) <? Z.to_nat (length q))%nat = true).
        { apply Nat.ltb_lt. rewrite length_contents.
          pose proof (wf_count q Hwf). pose proof (wf_full_count q Hwf) as [_ Hx].
          destruct (Nat.eq_dec (count q) (Z.to_nat (length q))) as [E|E]; [|lia].
          rewrite (Hx E) in Hf. discriminate. }
        rewrite Hlt.
        destruct (fifo_run (Z.to_nat (length q)) (contents q ++ [e]) ops) as [xs l'].
        simpl in *. split_and!; try done; congruence.
    + destruct (empty q) eqn:He.
      * assert (Hc : contents q = []).
        { apply contents_nil_count. now apply wf_empty_count. }
        destruct (IH q Hwf) as (q' & Hrun & Hwf' & Hlen & Hcont).
        exists q'. cbn [run step fifo_run fifo_step].
        rewrite getEvent_empty by assumption. rewrite Hrun, Hc in *.
        destruct (fifo_run (Z.to_nat (length q)) [] ops) as [xs l'].
        simpl in *. auto.
      * destruct (getEvent_ok q 0 Hwf He) as (q1 & x & Hget & Hwf1 & Hlen1 & Hcont1).
        destruct (IH q1 Hwf1) as (q' & Hrun & Hwf' & Hlen & Hcont).
        exists q'. cbn [run step fifo_run fifo_step].
        rewrite Hget, Hrun, Hlen1, Hcont1 in *.
        destruct (fifo_run (Z.to_nat (length q)) (contents q1) ops) as [xs l'].
        simpl in *. split_and!; try done; congruence.
Qed.

(** Pushes that fit are all accepted. *)
Lemma fifo_run_pushes (cap : nat) (es : list event_t) :
  forall l : list event_t,
    (List.length l + List.length es <= cap)%nat ->
    fifo_run cap l (map Push es) = (map (fun _ => Pushed QUEUE_OK) es, l ++ es).
Proof.
  induction es as [|e es IH]; intros l Hl; simpl.
  - now rewrite app_nil_r.
  - simpl in Hl.
    assert (Hlt : (List.length l <? cap)%nat = true) by (apply Nat.ltb_lt; lia).
    rewrite Hlt, IH by (rewrite length_app; simpl; lia).
    now rewrite <- app_assoc.
Qed.

End QueueRuns.

(** ** Chains of the hierarchy *)

Section Hierarchy.

Import Hsm.

Context {State : Type} `{EqDecision State}.
Variable parent : State -> State.

Lemma chain_head (n : nat) (s : State) (l : list State) :
  chain parent n s = Some l -> exists l', l = s :: l'.
Proof.
  destruct n as [|n]; simpl; [discriminate|].
  destruct (decide (s = parent s)); [intros [= <-]; eauto|].
  destruct (chain parent n (parent s)) as [l'|]; simpl; [|discriminate].
  intros [= <-]. eauto.
Qed.

Lemma chain_length (n : nat) :
  forall (s : State) (l : list State),
    chain parent n s = Some l -> (1 <= List.length l <= n)%nat.
Proof.
  induction n as [|n IH]; intros s l; simpl; [discriminate|].
  destruct (decide (s = parent s)); [intros [= <-]; simpl; lia|].
  destruct (chain parent n (parent s)) as [l'|] eqn:E; simpl; [|discriminate].
  intros [= <-]. specialize (IH _ _ E). simpl. lia.
Qed.

(** The chain of a state does not depend on the bound it is computed with. *)
Lemma chain_unique (n : nat) :
  forall (m : nat) (s : State) (l l' : list State),
    chain parent n s = Some l -> chain parent m s = Some l' -> l = l'.
Proof.
  induction n as [|n IH]; intros m s l l'; simpl; [discriminate|].
  destruct m as [|m]; simpl; [discriminate|].
  destruct (decide (s = parent s)); [congruence|].
  destruct (chain parent n (parent s)) as [k|] eqn:E; simpl; [|discriminate].
  destruct (chain parent m (parent s)) as [k'|] eqn:E'; simpl; [|discriminate].
  intros [= <-] [= <-]. f_equal. eapply IH; eassumption.
Qed.

(** From any node of a chain on, the chain is the chain of that node. *)
Lemma chain_suffix (n : nat) :
  forall (s x : State) (l1 l2 : list State),
    chain parent n s = Some (l1 ++ x :: l2) ->
    exists m : nat, chain parent m x = Some (x :: l2).
Proof.
  induction n as [|n IH]; intros s x l1 l2; simpl; [discriminate|].
  destruct (decide (s = parent s)) as [Hr|Hr].
  - intros [= E]. destruct l1 as [|y [|z l1]]; simplify_eq/=.
    exists 1%nat. simpl. rewrite decide_True by assumption. reflexivity.
  - destruct (chain parent n (parent s)) as [k|] eqn:E; simpl; [|discriminate].
    intros [= E']. destruct l1 as [|y l1]; simplify_eq/=.
    + exists (S n). simpl. rewrite decide_False by assumption. now rewrite E.
    + eapply IH. eassumption.
Qed.

Lemma chain_NoDup (n : nat) :
  forall (s : State) (l : list State), chain parent n s = Some l -> NoDup l.
Proof.
  induction n as [|n IH]; intros s l Hc; [discriminate|].
  pose proof Hc as Hc0. simpl in Hc.
  destruct (decide (s = parent s)) as [Hr|Hr].
  - injection Hc as <-. apply NoDup_singleton.
  - destruct (chain parent n (parent s)) as [k|] eqn:E; simpl in Hc; [|discriminate].
    injection Hc as <-. apply NoDup_cons. split; [|eapply IH; eassumption].
    intros Hin. apply list_elem_of_split in Hin as (l1 & l2 & ->).
    destruct (chain_suffix (S n) s s (s :: l1) l2 Hc0) as [m Hm].
    pose proof (chain_unique _ _ _ _ _ Hc0 Hm) as Heq.
    apply (f_equal (@List.length State)) in Heq.
    simpl in Heq. rewrite length_app in Heq. simpl in Heq. lia.
Qed.

(** A chain ends at a root. *)
Lemma chain_last (n : nat) :
  forall (s : State) (l : list State),
    chain parent n s = Some l -> exists r, last l = Some r /\ r = parent r.
Proof.
  induction n as [|n IH]; intros s l; simpl; [discriminate|].
  destruct (decide (s = parent s)) as [Hr|Hr]; [intros [= <-]; eauto|].
  destruct (chain parent n (parent s)) as [k|] eqn:E; simpl; [|discriminate].
  intros [= <-]. destruct (IH _ _ E) as (r & Hl & Hp). exists r. split; [|exact Hp].
  destruct (chain_head _ _ _ E) as [k' ->]. exact Hl.
Qed.

(** The nodes of the chain of [s] are [s] and what is met going up. *)
Lemma chain_iter (n : nat) :
  forall (s a : State) (l : list State),
    chain parent n s = Some l ->
    (a ∈ l <-> exists k : nat, Nat.iter k parent s = a).
Proof.
  induction n as [|n IH]; intros s a l; simpl; [discriminate|].
  destruct (decide (s = parent s)) as [Hr|Hr].
  - intros [= <-]. rewrite list_elem_of_singleton. split.
    + intros ->. now exists 0%nat.
    + intros [k <-]. induction k as [|k IHk]; simpl; [reflexivity|].
      rewrite IHk. symmetry. exact Hr.
  - destruct (chain parent n (parent s)) as [l'|] eqn:E; simpl; [|discriminate].
    intros [= <-]. rewrite elem_of_cons, (IH _ a _ E). split.
    + intros [->|[k <-]]; [now exists 0%nat|].
      exists (S k). rewrite Nat.iter_succ_r. reflexivity.
    + intros [[|k] <-]; [now left|].
      right. exists k. rewrite Nat.iter_succ_r. reflexivity.
Qed.

Lemma chain_ancestor (n : nat) (s a : State) (l : list State) :
  chain parent n s = Some l -> a <> s -> (a ∈ l <-> ancestor parent a s).
Proof.
  intros Hc Hne. rewrite (chain_iter n s a l Hc). unfold ancestor. tauto.
Qed.

(** *** Two lists and their longest common suffix *)

Lemma common_suffix_split (l1 : list State) :
  forall l2 : list State,
    exists u d c : list State,
      l1 = u ++ c /\ l2 = d ++ c /\ (u = [] \/ d = [] \/ last u <> last d).
Proof.
  induction l1 as [|x l1 IH] using rev_ind; intros l2.
  - exists [], l2, []. rewrite !app_nil_r. auto.
  - destruct l2 as [|y l2 _] using rev_ind.
    + exists (l1 ++ [x]), [], []. rewrite !app_nil_r. auto.
    + destruct (decide (x = y)) as [->|Hxy].
      * destruct (IH l2) as (u & d & c & -> & -> & Hd).
        exists u, d, (c ++ [y]). rewrite !app_assoc. auto.
      * exists (l1 ++ [x]), (l2 ++ [y]), []. rewrite !app_nil_r.
        split_and!; try done. right; right. rewrite !last_snoc. congruence.
Qed.

(** *** The least common ancestor, and the nodes below it *)

Lemma lca_skip (up d1 c : list State) :
  (forall y, y ∈ d1 -> y ∉ up) -> lca up (d1 ++ c) = lca up c.
Proof.
  induction d1 as [|y d1 IH]; intros Hd; simpl; [reflexivity|].
  rewrite decide_False by (apply Hd; left).
  apply IH. intros z Hz. apply Hd. now right.
Qed.

Lemma below_stop (a : State) (l1 l2 : list State) :
  a ∉ l1 -> below a (l1 ++ a :: l2) = l1.
Proof.
  induction l1 as [|y l1 IH]; intros Ha; simpl.
  - now rewrite decide_True.
  - rewrite not_elem_of_cons in Ha. destruct Ha as [Hne Ha].
    rewrite decide_False by congruence. now rewrite IH.
Qed.

Lemma below_head (a : State) (l : list State) : below a (a :: l) = [].
Proof. simpl. now rewrite decide_True. Qed.

(** The least common ancestor of [up] and [down] is on both chains, and no
    node of [down] below it is on [up]. *)
Lemma lca_spec (up down : list State) (a : State) :
  lca up down = Some a ->
  a ∈ up /\ a ∈ down /\ forall y, y ∈ below a down -> y ∉ up.
Proof.
  induction down as [|x down IH]; simpl; [discriminate|].
  destruct (decide (x ∈ up)) as [Hx|Hx].
  - intros [= ->]. rewrite decide_True by reflexivity.
    split_and!; [assumption | now left | intros y Hy; inversion Hy].
  - intros Hl. destruct (IH Hl) as (Hu & Hd & Hb).
    split_and!; [assumption | now right |].
    destruct (decide (x = a)) as [->|Hne]; [contradiction|].
    intros y [->|Hy]%elem_of_cons; auto.
Qed.

(** Two chains cut at their longest common suffix: no node of one cut-off
    part is on the other chain. *)
Lemma chains_sep (n m : nat) (s t : State) (u d c : list State) :
  chain parent n s = Some (u ++ c) ->
  chain parent m t = Some (d ++ c) ->
  (u = [] \/ d = [] \/ last u <> last d) ->
  forall y, y ∈ d -> y ∉ u ++ c.
Proof.
  intros Hup Hdown Hdiv y Hyd Hyu.
  apply list_elem_of_split in Hyd as (d1 & d2 & ->).
  apply list_elem_of_split in Hyu as (p1 & p2 & Hp).
  rewrite <- app_assoc in Hdown. simpl in Hdown.
  destruct (chain_suffix _ _ _ _ _ Hdown) as [k1 Hk1].
  rewrite Hp in Hup.
  destruct (chain_suffix _ _ _ _ _ Hup) as [k2 Hk2].
  pose proof (chain_unique _ _ _ _ _ Hk1 Hk2) as Heq.
  injection Heq as Heq. subst p2.
  assert (Hu : u = p1 ++ y :: d2).
  { apply (app_inv_tail c). rewrite Hp, <- app_assoc. reflexivity. }
  subst u. destruct Hdiv as [Hdiv|[Hdiv|Hdiv]].
  - destruct p1; discriminate.
  - destruct d1; discriminate.
  - apply Hdiv. rewrite !last_app. simpl.
    destruct (last (y :: d2)) eqn:E; [reflexivity|].
    apply last_None in E. discriminate.
Qed.

(** Two chains with the same root, cut at their longest common suffix: the
    suffix starts at the least common ancestor, and what is cut off are the
    nodes below it. *)
Lemma chains_split (n m : nat) (s t : State) (up down u d c : list State) :
  chain parent n s = Some up ->
  chain parent m t = Some down ->
  last up = last down ->
  up = u ++ c -> down = d ++ c ->
  (u = [] \/ d = [] \/ last u <> last d) ->
  exists (a : State) (c' : list State),
    c = a :: c' /\ lca up down = Some a /\ below a up = u /\ below a down = d.
Proof.
  intros Hup Hdown Hroot -> -> Hdiv.
  (* the common suffix holds the root *)
  destruct c as [|a c'].
  { exfalso. rewrite !app_nil_r in *.
    destruct (chain_head _ _ _ Hup) as [? ->].
    destruct (chain_head _ _ _ Hdown) as [? ->].
    destruct Hdiv as [?|[?|?]]; congruence. }
  exists a, c'. split; [reflexivity|].
  pose proof (chain_NoDup _ _ _ Hup) as Nu.
  pose proof (chain_NoDup _ _ _ Hdown) as Nd.
  assert (Ha_u : a ∉ u).
  { intros Hin. apply NoDup_app in Nu as (_ & Nu & _). apply (Nu a Hin). now left. }
  assert (Ha_d : a ∉ d).
  { intros Hin. apply NoDup_app in Nd as (_ & Nd & _). apply (Nd a Hin). now left. }
  split_and!.
  - rewrite lca_skip by (eapply chains_sep; eassumption).
    simpl. rewrite decide_True; [reflexivity|].
    apply elem_of_app. right. now left.
  - now apply below_stop.
  - now apply below_stop.
Qed.

(** The exit path and the entry path of a transition between two states of
    one hierarchy: each is empty exactly when its end is an ancestor of the
    other state, and neither holds a node twice. *)
Lemma transition_paths (n m : nat) (s t : State) (up down : list State) :
  chain parent n s = Some up ->
  chain parent m t = Some down ->
  last up = last down ->
  s <> t ->
  exists a : State,
    lca up down = Some a /\
    (exit_path up down = [] <-> ancestor parent s t) /\
    (entry_path up down = [] <-> ancestor parent t s) /\
    NoDup (exit_path up down) /\ NoDup (entry_path up down).
Proof.
  intros Hup Hdown Hroot Hne.
  destruct (common_suffix_split up down) as (u & d & c & Eu & Ed & Hdiv).
  destruct (chains_split _ _ _ _ _ _ _ _ _ Hup Hdown Hroot Eu Ed Hdiv)
    as (a & c' & Ec & Hlca & Hbu & Hbd).
  exists a. split; [exact Hlca|].
  unfold exit_path, entry_path. rewrite Hlca, Hbu, Hbd.
  pose proof (chain_NoDup _ _ _ Hup) as Nu.
  pose proof (chain_NoDup _ _ _ Hdown) as Nd.
  destruct (chain_head _ _ _ Hup) as [up' Hu'].
  destruct (chain_head _ _ _ Hdown) as [down' Hd'].
  rewrite <- (chain_ancestor _ _ _ _ Hdown) by assumption.
  rewrite <- (chain_ancestor _ _ _ _ Hup) by congruence.
  subst up down.
  assert (Hdiv' : d = [] \/ u = [] \/ last d <> last u).
  { destruct Hdiv as [?|[?|?]]; auto. }
  split_and!.
  - split.
    + intros ->. simpl in Hu'. rewrite Hu'.
      apply elem_of_app. right. now left.
    + intros Hin. destruct u as [|x u]; [reflexivity|]. exfalso.
      simpl in Hu'. injection Hu' as -> _.
      apply (chains_sep _ _ _ _ _ _ _ Hdown Hup Hdiv' s); [now left | exact Hin].
  - split.
    + intros Hr. apply (f_equal (@rev State)) in Hr. rewrite rev_involutive in Hr.
      simpl in Hr. subst d. simpl in Hd'. rewrite Hd'.
      apply elem_of_app. right. now left.
    + intros Hin. destruct d as [|x d]; [reflexivity|]. exfalso.
      simpl in Hd'. injection Hd' as -> _.
      apply (chains_sep _ _ _ _ _ _ _ Hup Hdown Hdiv t); [now left | exact Hin].
  - now apply NoDup_app in Nu as (Nu & _).
  - apply NoDup_ListNoDup, List.NoDup_rev, NoDup_ListNoDup.
    now apply NoDup_app in Nd as (Nd & _).
Qed.

(** Two chains cut at their longest common suffix, of one hierarchy or not:
    what is cut off are the exit path and the entry path, and no node of
    them is on the other chain. *)
Lemma paths_cut (n m : nat) (s t : State) (up down u d c : list State) :
  chain parent n s = Some up ->
  chain parent m t = Some down ->
  up = u ++ c -> down = d ++ c ->
  (u = [] \/ d = [] \/ last u <> last d) ->
  exit_path up down = u /\ entry_path up down = rev d /\
  (forall y, y ∈ u -> y ∉ down) /\ (forall y, y ∈ d -> y ∉ up).
Proof.
  intros Hup Hdown Eu Ed Hdiv.
  assert (Hdiv' : d = [] \/ u = [] \/ last d <> last u).
  { destruct Hdiv as [?|[?|?]]; auto. }
  assert (Hsu : forall y, y ∈ u -> y ∉ down).
  { subst up down. eapply chains_sep; eassumption. }
  assert (Hsd : forall y, y ∈ d -> y ∉ up).
  { subst up down. eapply chains_sep; eassumption. }
  split_and!; try assumption.
  - destruct c as [|a c'].
    + rewrite app_nil_r in Eu, Ed. subst u d.
      unfold exit_path. replace (lca up down) with (@None State); [reflexivity|].
      symmetry. rewrite <- (app_nil_r down). now rewrite lca_skip.
    + assert (Hroot : last up = last down).
      { rewrite Eu, Ed, !last_app.
        destruct (last (a :: c')) eqn:E; [reflexivity|].
        apply last_None in E. discriminate. }
      destruct (chains_split _ _ _ _ _ _ _ _ _ Hup Hdown Hroot Eu Ed Hdiv)
        as (a0 & c0 & _ & Hlca & Hbu & _).
      unfold exit_path. now rewrite Hlca.
  - destruct c as [|a c'].
    + rewrite app_nil_r in Eu, Ed. subst u d.
      unfold entry_path. replace (lca up down) with (@None State); [reflexivity|].
      symmetry. rewrite <- (app_nil_r down). now rewrite lca_skip.
    + assert (Hroot : last up = last down).
      { rewrite Eu, Ed, !last_app.
        destruct (last (a :: c')) eqn:E; [reflexivity|].
        apply last_None in E. discriminate. }
      destruct (chains_split _ _ _ _ _ _ _ _ _ Hup Hdown Hroot Eu Ed Hdiv)
        as (a0 & c0 & _ & Hlca & _ & Hbd).
      unfold entry_path. now rewrite Hlca, Hbd.
Qed.

End Hierarchy.

(** ** The loops of [setState] *)

Section EngineFacts.

Import Hsm.

Context {State : Type} `{EqDecision State} {App : Type}.
Variable parent : State -> State.
Variable handler : State -> event_t -> world State App -> world State App.

Lemma set_path_path (a : path_array) (w : world State App) :
  set_path a (path a w) w = w.
Proof. destruct w, a; reflexivity. Qed.

Lemma path_set_path (a : path_array) (l : list State) (w : world State App) :
  path a (set_path a l w) = l.
Proof. destruct a; reflexivity. Qed.

Lemma set_path_twice (a : path_array) (l l' : list State) (w : world State App) :
  set_path a l (set_path a l' w) = set_path a l w.
Proof. destruct a; reflexivity. Qed.

Lemma read_ok (a : path_array) (i : nat) (w : world State App) (s : State) :
  (i < 16)%nat -> path a w !! i = Some s ->
  read a (Z.of_nat i) w = Ret (s, w, []).
Proof.
  intros Hi Hs. unfold read, PATH_DEPTH. rewrite Nat2Z.id, Hs.
  destruct (Z.leb_spec 0 (Z.of_nat i)); [|lia].
  destruct (Z.ltb_spec (Z.of_nat i) 16); [reflexivity|lia].
Qed.

Lemma write_ok (a : path_array) (i : nat) (s : State) (w : world State App) :
  (i < 16)%nat -> (i < List.length (path a w))%nat ->
  write a (Z.of_nat i) s w = Ret (tt, set_path a (<[i := s]> (path a w)) w, []).
Proof.
  intros Hi Hl. unfold write, PATH_DEPTH. rewrite Nat2Z.id.
  destruct (Z.leb_spec 0 (Z.of_nat i)); [|lia].
  destruct (Z.ltb_spec (Z.of_nat i) 16); [|lia].
  destruct (Z.ltb_spec (Z.of_nat i) (Z.of_nat (List.length (path a w)))); [reflexivity|lia].
Qed.

(** Going to the root writes the chain of the starting state into the
    array, from the index where that state is. *)
Lemma climb_chain (a : path_array) (n : nat) :
  forall (s : State) (l : list State) (fuel c : nat) (w : world State App),
    chain parent n s = Some l ->
    path a w !! c = Some s ->
    (c + List.length l <= 16)%nat ->
    (c + List.length l <= List.length (path a w))%nat ->
    (List.length l <= fuel)%nat ->
    climb parent a fuel (Z.of_nat c) w =
      Ret (Z.of_nat (c + List.length l - 1),
           set_path a (take c (path a w) ++ l ++ drop (c + List.length l) (path a w)) w,
           []).
Proof.
  induction n as [|n IH]; intros s l fuel c w Hc Hs H16 Hlen Hfuel; [discriminate|].
  simpl in Hc. destruct fuel as [|fuel].
  { destruct (decide (s = parent s)); [injection Hc as <-; simpl in Hfuel; lia|].
    destruct (chain parent n (parent s)); simpl in Hc; [|discriminate].
    injection Hc as <-. simpl in Hfuel. lia. }
  simpl. unfold bind at 1.
  assert (Hc16 : (c < 16)%nat).
  { destruct (decide (s = parent s)); [injection Hc as <-; simpl in *; lia|].
    destruct (chain parent n (parent s)); simpl in Hc; [|discriminate].
    injection Hc as <-. simpl in *. lia. }
  rewrite (read_ok a c w s Hc16 Hs).
  destruct (decide (s = parent s)) as [Hr|Hr].
  - injection Hc as <-. rewrite decide_False by tauto.
    unfold ret. simpl. replace (c + 1 - 1)%nat with c by lia.
    replace (c + 1)%nat with (S c) by lia.
    rewrite (take_drop_middle _ _ _ Hs), set_path_path. reflexivity.
  - destruct (chain parent n (parent s)) as [l'|] eqn:E; simpl in Hc; [|discriminate].
    injection Hc as <-. simpl in H16, Hlen, Hfuel.
    rewrite decide_True by tauto.
    rewrite (u8_small (Z.of_nat c + 1)) by lia.
    replace (Z.of_nat c + 1 - 1) with (Z.of_nat c) by lia.
    replace (Z.of_nat c + 1) with (Z.of_nat (S c)) by lia.
    unfold bind. rewrite (read_ok a c w s Hc16 Hs).
    pose proof (chain_length parent _ _ _ E) as Hl'.
    rewrite write_ok by lia.
    rewrite (IH (parent s) l' fuel (S c)); try assumption.
    + rewrite path_set_path, set_path_twice. simpl.
      rewrite take_insert_ge, drop_insert_lt by lia.
      rewrite (take_S_r _ _ _ Hs), <- app_assoc. simpl.
      replace (c + S (List.length l'))%nat with (S (c + List.length l')) by lia.
      repeat f_equal; lia.
    + rewrite path_set_path. apply list_lookup_insert_eq. lia.
    + lia.
    + rewrite path_set_path, length_insert. lia.
    + lia.
Qed.

(** Pruning stops where the two chains part. The arrays hold [u ++ c] and
    [d ++ c], where [c] is common and [u] and [d] end differently. *)
Lemma prune_common (c : list State) :
  forall (u d ru rd : list State) (fuel : nat) (w : world State App),
    up_path w = u ++ c ++ ru ->
    down_path w = d ++ c ++ rd ->
    (1 <= List.length (u ++ c) <= 16)%nat ->
    (1 <= List.length (d ++ c) <= 16)%nat ->
    ~ (u = [] /\ d = []) ->
    (u = [] \/ d = [] \/ last u <> last d) ->
    (List.length c < fuel)%nat ->
    prune fuel (Z.of_nat (List.length (u ++ c)) - 1) (Z.of_nat (List.length (d ++ c)) - 1)
          false false w =
      Ret (match u, d with
           | [], _ => (0, Z.of_nat (List.length d) - 1, false, true)
           | _, [] => (Z.of_nat (List.length u) - 1, 0, true, false)
           | _, _ => (Z.of_nat (List.length u) - 1, Z.of_nat (List.length d) - 1, false, false)
           end, w, []).
Proof.
  induction c as [|x c IH] using rev_ind;
    intros u d ru rd fuel w Hu Hd Lu Ld Hboth Hdiv Hfuel.
  - (* nothing in common is left: the two entries differ *)
    rewrite !app_nil_r in *. simpl in Hu, Hd.
    destruct fuel as [|fuel]; [simpl in Hfuel; lia|].
    destruct (last u) as [xu|] eqn:Eu.
    2:{ apply last_None in Eu. subst u. simpl in Lu. lia. }
    destruct (last d) as [xd|] eqn:Ed.
    2:{ apply last_None in Ed. subst d. simpl in Ld. lia. }
    assert (Hne : xu <> xd).
    { destruct Hdiv as [->|[->|Hdiv]]; [discriminate Eu | discriminate Ed | congruence]. }
    simpl. unfold bind.
    replace (Z.of_nat (List.length u) - 1) with (Z.of_nat (pred (List.length u))) by lia.
    replace (Z.of_nat (List.length d) - 1) with (Z.of_nat (pred (List.length d))) by lia.
    rewrite (read_ok UpPath _ w xu); [|lia|].
    2:{ simpl. rewrite Hu, lookup_app_l by lia. now rewrite <- last_lookup. }
    rewrite (read_ok DownPath _ w xd); [|lia|].
    2:{ simpl. rewrite Hd, lookup_app_l by lia. now rewrite <- last_lookup. }
    rewrite decide_False by assumption. unfold ret. simpl.
    destruct u as [|? ?]; [discriminate Eu|].
    destruct d as [|? ?]; [discriminate Ed|]. reflexivity.
  - (* the two entries are the same node [x] *)
    destruct fuel as [|fuel]; [lia|].
    rewrite length_app in Hfuel. simpl in Hfuel.
    rewrite !app_assoc in Lu, Ld. rewrite !length_app in Lu, Ld. simpl in Lu, Ld.
    rewrite <- !length_app in Lu, Ld.
    rewrite !(app_assoc _ c [x]), !length_app. simpl List.length.
    rewrite <- !length_app.
    replace (Z.of_nat (List.length (u ++ c) + 1) - 1)
      with (Z.of_nat (List.length (u ++ c))) by lia.
    replace (Z.of_nat (List.length (d ++ c) + 1) - 1)
      with (Z.of_nat (List.length (d ++ c))) by lia.
    simpl. unfold bind.
    rewrite (read_ok UpPath _ w x); [|lia|].
    2:{ simpl. rewrite Hu, <- !app_assoc, app_assoc. simpl.
        now rewrite list_lookup_middle. }
    rewrite (read_ok DownPath _ w x); [|lia|].
    2:{ simpl. rewrite Hd, <- !app_assoc, app_assoc. simpl.
        now rewrite list_lookup_middle. }
    rewrite decide_True by reflexivity.
    destruct (Z.eqb_spec (Z.of_nat (List.length (u ++ c))) 0) as [Z0|N0].
    + (* the current state is the common node: no exit *)
      assert (Hnil : u ++ c = []) by (apply length_zero_iff_nil; lia).
      apply app_eq_nil in Hnil as [-> ->]. rewrite ?app_nil_r in *. simpl in *.
      destruct d as [|y d]; [tauto|]. simpl in *.
      rewrite u8_small by lia. unfold ret. repeat f_equal; lia.
    + destruct (Z.eqb_spec (Z.of_nat (List.length (d ++ c))) 0) as [Z0'|N0'].
      * (* the destination is the common node: no entry *)
        assert (Hnil : d ++ c = []) by (apply length_zero_iff_nil; lia).
        apply app_eq_nil in Hnil as [-> ->]. rewrite ?app_nil_r in *. simpl in *.
        destruct u as [|y u]; [simpl in N0; lia|]. simpl in *.
        rewrite u8_small by lia. unfold ret. repeat f_equal; lia.
      * rewrite !u8_small by lia.
        rewrite (IH u d ([x] ++ ru) ([x] ++ rd) fuel w); try assumption; try lia.
        -- destruct u, d; reflexivity.
        -- rewrite Hu, <- !app_assoc. reflexivity.
        -- rewrite Hd, <- !app_assoc. reflexivity.
Qed.

(** The exit loop makes one call, on the state at index 0: its counter
    goes from 0 to 255, above any index of the array. *)
Lemma exit_loop_once (fuel : nat) (c : Z) (w : world State App) (s : State) :
  (2 <= fuel)%nat -> 0 <= c < 255 ->
  up_path w !! 0%nat = Some s ->
  exit_loop handler fuel 0 c w =
    Ret (tt, handler s HSM_ON_EXIT w, [Handler s HSM_ON_EXIT]).
Proof.
  intros Hfuel Hc Hs.
  destruct fuel as [|[|fuel]]; try lia.
  simpl. destruct (Z.leb_spec 0 c); [|lia].
  unfold bind. change (read UpPath 0 w) with (read UpPath (Z.of_nat 0) w).
  rewrite (read_ok UpPath 0 w s); [|lia|exact Hs].
  unfold call_handler.
  change (u8 (0 - 1)) with 255.
  destruct (Z.leb_spec 255 c); [lia|]. reflexivity.
Qed.

(** The entry loop calls the states of the first [k + 1] cells of
    [down_path], the last of them first. *)
Lemma entry_loop_calls (k : nat) :
  forall (fuel : nat) (w : world State App),
    quiet_actions handler ->
    (k < fuel)%nat -> (k < 16)%nat -> (k < List.length (down_path w))%nat ->
    entry_loop handler fuel (Z.of_nat (S k)) w =
      Ret (tt,
           run_calls handler
             (map (fun x => (x, HSM_ON_ENTRY)) (rev (take (S k) (down_path w)))) w,
           map (fun x => Handler x HSM_ON_ENTRY) (rev (take (S k) (down_path w)))).
Proof.
  induction k as [|k IH]; intros fuel w Hq Hfuel H16 Hlen.
  - destruct fuel as [|fuel]; [lia|]. simpl entry_loop.
    change (u8 (Z.of_nat 1 - 1)) with (Z.of_nat 0).
    destruct (down_path w) as [|x dl] eqn:E; [simpl in Hlen; lia|].
    unfold bind. rewrite (read_ok DownPath 0 w x); [|lia|simpl; now rewrite E].
    unfold call_handler. reflexivity.
  - destruct fuel as [|fuel]; [lia|]. simpl entry_loop.
    replace (Z.of_nat (S (S k)) - 1) with (Z.of_nat (S k)) by lia.
    rewrite u8_small by lia.
    destruct (lookup_lt_is_Some_2 (down_path w) (S k) Hlen) as [x Hx].
    unfold bind. rewrite (read_ok DownPath (S k) w x); [|lia|exact Hx].
    unfold call_handler.
    destruct (Z.eqb_spec (Z.of_nat (S k)) 0) as [|_]; [lia|].
    change (negb false) with true. cbv iota.
    destruct (Hq x HSM_ON_ENTRY w (or_intror eq_refl)) as [Hkeep _].
    rewrite (IH fuel (handler x HSM_ON_ENTRY w)); try assumption; try lia.
    2:{ rewrite Hkeep. lia. }
    rewrite Hkeep, (take_S_r _ (S k) x Hx), rev_app_distr. reflexivity.
Qed.


(** *** Sending an event *)

Lemma set_eventQueue_same (w : world State App) :
  set_eventQueue (eventQueue (hsm w)) w = w.
Proof. destruct w as [[? ?] ? ? ?]. reflexivity. Qed.

Lemma sendEvent_full (e : event_t) (w : world State App) :
  Queue.full (eventQueue (hsm w)) = true ->
  sendEvent e w = Ret (tt, w, [DisableIrq; PutEvent e QUEUE_FULL; EnableIrq]).
Proof.
  intros Hf. unfold sendEvent, bind, disable_irq, put_event, enable_irq.
  rewrite putEvent_full by assumption. now rewrite set_eventQueue_same.
Qed.

Lemma sendEvent_ok (e : event_t) (w : world State App) :
  Queue.wf (eventQueue (hsm w)) ->
  Queue.full (eventQueue (hsm w)) = false ->
  exists q',
    Queue.putEvent (eventQueue (hsm w)) e = Ret (QUEUE_OK, q') /\
    Queue.wf q' /\
    Queue.contents q' = Queue.contents (eventQueue (hsm w)) ++ [e] /\
    sendEvent e w =
      Ret (tt, set_eventQueue q' w, [DisableIrq; PutEvent e QUEUE_OK; EnableIrq]).
Proof.
  intros Hwf Hf.
  destruct (putEvent_ok _ e Hwf Hf) as (q' & Hput & Hwf' & _ & Hc).
  exists q'. split_and!; try assumption.
  unfold sendEvent, bind, disable_irq, put_event, enable_irq.
  now rewrite Hput.
Qed.

(** With a well-formed queue, [sendEvent] returns, and touches the queue
    only. *)
Lemma sendEvent_total (e : event_t) (w : world State App) :
  Queue.wf (eventQueue (hsm w)) ->
  exists (r : eventQueueError_t) (q' : Queue.eventQueue_t),
    sendEvent e w =
      Ret (tt, set_eventQueue q' w, [DisableIrq; PutEvent e r; EnableIrq]) /\
    Queue.wf q'.
Proof.
  intros Hwf. destruct (Queue.full (eventQueue (hsm w))) eqn:Hf.
  - exists QUEUE_FULL, (eventQueue (hsm w)). rewrite set_eventQueue_same.
    split; [now apply sendEvent_full | assumption].
  - destruct (sendEvent_ok e w Hwf Hf) as (q' & _ & Hwf' & _ & Hs). eauto.
Qed.

(** What [sendEvent] has done when it returns: one push, between the
    masking and the unmasking of the interrupts. *)
Lemma sendEvent_inv (e : event_t) (w w' : world State App) (l : list (call State)) :
  sendEvent e w = Ret (tt, w', l) ->
  exists (r : eventQueueError_t) (q' : Queue.eventQueue_t),
    Queue.putEvent (eventQueue (hsm w)) e = Ret (r, q') /\
    w' = set_eventQueue q' w /\
    l = [DisableIrq; PutEvent e r; EnableIrq].
Proof.
  unfold sendEvent, bind, disable_irq, put_event, enable_irq.
  destruct (Queue.putEvent (eventQueue (hsm w)) e) as [[r q']| |]; try discriminate.
  cbn. intros [= <- <-]. eauto.
Qed.

(** *** The handler calls of a transition *)

Lemma run_calls_app (cs1 cs2 : list (State * event_t)) (w : world State App) :
  run_calls handler (cs1 ++ cs2) w = run_calls handler cs2 (run_calls handler cs1 w).
Proof. unfold run_calls. apply fold_left_app. Qed.

(** Quiet actions keep [down_path] and the well-formedness of the queue. *)
Lemma run_calls_quiet (cs : list (State * event_t)) :
  quiet_actions handler ->
  Forall (fun c => snd c = HSM_ON_EXIT \/ snd c = HSM_ON_ENTRY) cs ->
  forall w : world State App,
    down_path (run_calls handler cs w) = down_path w /\
    (Queue.wf (eventQueue (hsm w)) ->
     Queue.wf (eventQueue (hsm (run_calls handler cs w)))).
Proof.
  intros Hq. induction 1 as [|[s e] cs He _ IH]; intros w; simpl; [tauto|].
  destruct (Hq s e w He) as [Hd Hw].
  destruct (IH (handler s e w)) as [Hd' Hw'].
  split; [congruence | tauto].
Qed.


Lemma logged_nil {A : Type} (r : res (A * world State App * list (call State))) :
  logged [] r = r.
Proof. destruct r as [[[a w] l]| |]; reflexivity. Qed.

Lemma logged_logged {A : Type} (l1 l2 : list (call State))
    (r : res (A * world State App * list (call State))) :
  logged l1 (logged l2 r) = logged (l1 ++ l2) r.
Proof. destruct r as [[[a w] l]| |]; simpl; [|reflexivity..]. now rewrite app_assoc. Qed.

Lemma bind_step {A B : Type} (m : M State App A) (k : A -> M State App B)
    (w w1 : world State App) (a : A) (l1 : list (call State)) :
  m w = Ret (a, w1, l1) -> bind m k w = logged l1 (k a w1).
Proof. intros Hm. unfold bind. now rewrite Hm. Qed.

Lemma setState_general (w : world State App) (s t : State) (up down : list State) :
  currentState (hsm w) = s -> s <> t ->
  chain parent 16 s = Some up ->
  chain parent 16 t = Some down ->
  List.length (up_path w) = 16%nat ->
  List.length (down_path w) = 16%nat ->
  quiet_actions handler ->
  forall (w' : world State App) (l' : list (call State)),
    sendEvent HSM_INITIAL
      (set_currentState t
         (run_calls handler (transition_calls up down) (with_paths up down w)))
      = Ret (tt, w', l') ->
    setState parent handler t w =
      Ret (tt, w', map (fun c => Handler (fst c) (snd c)) (transition_calls up down) ++ l').
Proof.
  intros Hcur Hne Hup Hdown Lup Ldown Hq w' l' Hsend.
  pose proof (chain_length parent _ _ _ Hup) as Hlu.
  pose proof (chain_length parent _ _ _ Hdown) as Hld.
  destruct (chain_head parent _ _ _ Hup) as [up' Eup].
  destruct (chain_head parent _ _ _ Hdown) as [down' Edown].
  unfold setState.
  set (F := LOOP_FUEL) in *.
  assert (HF : (17 <= F)%nat) by (unfold F, LOOP_FUEL; lia).
  clearbody F.
  (* the two climbs *)
  rewrite (bind_step _ _ w w s []) by (unfold get_currentState; now rewrite Hcur).
  rewrite logged_nil, decide_False by assumption.
  rewrite (bind_step _ _ w w s []) by (unfold get_currentState; now rewrite Hcur).
  rewrite logged_nil.
  pose proof (write_ok UpPath 0 s w) as Hw0. change (Z.of_nat 0) with 0 in Hw0.
  rewrite (bind_step _ _ _ _ _ _ (Hw0 ltac:(lia) ltac:(simpl; lia))), logged_nil.
  clear Hw0.
  pose proof (climb_chain UpPath 16 s up F 0
                (set_path UpPath (<[0%nat:=s]> (path UpPath w)) w) Hup) as Hc1.
  change (Z.of_nat 0) with 0 in Hc1.
  rewrite (bind_step _ _ _ _ _ _ (Hc1
     ltac:(simpl; destruct (up_path w); [discriminate Lup | reflexivity])
     ltac:(lia) ltac:(simpl; rewrite length_insert; lia) ltac:(lia))), logged_nil.
  clear Hc1.
  cbn [path set_path up_path down_path hsm Hsm.app Nat.add firstn List.app].
  rewrite drop_insert_lt by lia.
  match goal with |- bind _ _ ?w1 = _ =>
    pose proof (write_ok DownPath 0 t w1) as Hw0 end.
  change (Z.of_nat 0) with 0 in Hw0.
  rewrite (bind_step _ _ _ _ _ _ (Hw0 ltac:(lia) ltac:(simpl; lia))), logged_nil.
  clear Hw0.
  match goal with |- bind _ _ ?w1 = _ =>
    pose proof (climb_chain DownPath 16 t down F 0 w1 Hdown) as Hc1 end.
  change (Z.of_nat 0) with 0 in Hc1.
  rewrite (bind_step _ _ _ _ _ _ (Hc1
     ltac:(simpl; destruct (down_path w); [discriminate Ldown | reflexivity])
     ltac:(lia) ltac:(simpl; rewrite length_insert; lia) ltac:(lia))), logged_nil.
  clear Hc1.
  cbn [path set_path up_path down_path hsm Hsm.app Nat.add firstn List.app].
  rewrite drop_insert_lt by lia.
  fold (with_paths up down w).
  (* the pruning *)
  destruct (common_suffix_split up down) as (u & d & c & Eu & Ed & Hdiv).
  destruct (paths_cut parent _ _ _ _ _ _ _ _ _ Hup Hdown Eu Ed Hdiv)
    as (Hex & Hen & _ & _).
  assert (Hboth : ~ (u = [] /\ d = [])).
  { intros [-> ->]. simpl in Eu, Ed. congruence. }
  unfold transition_calls in *. rewrite Hex, Hen in *.
  assert (Hlend : (List.length d <= 16)%nat).
  { rewrite Ed, length_app in Hld. lia. }
  assert (Hlenu : (List.length u <= 16)%nat).
  { rewrite Eu, length_app in Hlu. lia. }
  pose proof (prune_common c u d (drop (List.length up) (up_path w))
                (drop (List.length down) (down_path w)) F
                (with_paths up down w)) as Hp.
  rewrite <- Eu, <- Ed in Hp.
  replace (Z.of_nat (List.length up - 1)) with (Z.of_nat (List.length up) - 1) by lia.
  replace (Z.of_nat (List.length down - 1)) with (Z.of_nat (List.length down) - 1) by lia.
  rewrite (bind_step _ _ _ _ _ _ (Hp
     ltac:(simpl; rewrite Eu, <- app_assoc; reflexivity)
     ltac:(simpl; rewrite Ed, <- app_assoc; reflexivity)
     ltac:(lia) ltac:(lia) Hboth Hdiv
     ltac:(rewrite Eu, length_app in Hlu; lia))), logged_nil.
  clear Hp.
  assert (Hdpath : down_path (with_paths up down w)
                   = d ++ c ++ drop (List.length down) (down_path w)).
  { simpl. rewrite Ed, <- app_assoc. reflexivity. }
  destruct u as [|s0 u].
  - (* the current state is an ancestor of the destination *)
    destruct d as [|t0 d]; [tauto|].
    cbn [eqb firstn map]. cbn [firstn map] in Hsend.
    rewrite app_nil_l in Hsend |- *.
    rewrite (bind_step _ _ _ _ tt [] eq_refl), logged_nil.
    cbn [List.length]. replace (Z.of_nat (S (List.length d)) - 1 + 1)
      with (Z.of_nat (S (List.length d))) by lia.
    rewrite u8_small by (simpl List.length in Hlend; lia).
    rewrite (bind_step _ _ _ _ _ _ (entry_loop_calls (List.length d) F
       (with_paths up down w) Hq
       ltac:(simpl in Hlend; lia) ltac:(simpl in Hlend; lia)
       ltac:(rewrite Hdpath, length_app; simpl; lia))).
    rewrite Hdpath.
    replace (S (List.length d)) with (List.length (t0 :: d)) by reflexivity.
    rewrite take_app_length.
    rewrite (bind_step _ _ _ _ tt [] eq_refl), logged_nil.
    rewrite Hsend. cbn [logged].
    now rewrite map_map.
  - assert (up_path (with_paths up down w) !! 0%nat = Some s0) as Hs0.
    { simpl. rewrite Eu. reflexivity. }
    destruct d as [|t0 d].
    + (* the destination is an ancestor of the current state *)
      change (take 1 (s0 :: u)) with [s0] in Hsend |- *.
      cbn [eqb map List.app rev]. cbn [map List.app rev] in Hsend.
      rewrite (bind_step _ _ _ _ _ _ (exit_loop_once F
         (Z.of_nat (List.length (s0 :: u)) - 1) (with_paths up down w) s0
         ltac:(lia) ltac:(simpl List.length in *; lia) Hs0)).
      rewrite (bind_step _ _ _ _ tt [] eq_refl), logged_nil.
      rewrite (bind_step _ _ _ _ tt [] eq_refl), logged_nil.
      change (run_calls handler [(s0, HSM_ON_EXIT)] (with_paths up down w))
        with (handler s0 HSM_ON_EXIT (with_paths up down w)) in Hsend.
      rewrite Hsend. reflexivity.
    + (* the two chains part below a common ancestor *)
      change (take 1 (s0 :: u)) with [s0] in Hsend |- *.
      cbn [eqb].
      rewrite (bind_step _ _ _ _ _ _ (exit_loop_once F
         (Z.of_nat (List.length (s0 :: u)) - 1) (with_paths up down w) s0
         ltac:(lia) ltac:(simpl List.length in *; lia) Hs0)).
      cbn [List.length]. replace (Z.of_nat (S (List.length d)) - 1 + 1)
        with (Z.of_nat (S (List.length d))) by lia.
      rewrite u8_small by (simpl List.length in Hlend; lia).
      destruct (Hq s0 HSM_ON_EXIT (with_paths up down w) (or_introl eq_refl))
        as [Hkeep _].
      rewrite (bind_step _ _ _ _ _ _ (entry_loop_calls (List.length d) F
         (handler s0 HSM_ON_EXIT (with_paths up down w)) Hq
         ltac:(simpl in Hlend; lia) ltac:(simpl in Hlend; lia)
         ltac:(rewrite Hkeep, Hdpath, length_app; simpl; lia))).
      rewrite Hkeep, Hdpath.
      replace (S (List.length d)) with (List.length (t0 :: d)) by reflexivity.
      rewrite take_app_length.
      rewrite (bind_step _ _ _ _ tt [] eq_refl), logged_nil.
      rewrite run_calls_app in Hsend.
      change (run_calls handler (map (fun x => (x, HSM_ON_EXIT)) [s0])
                        (with_paths up down w))
        with (handler s0 HSM_ON_EXIT (with_paths up down w)) in Hsend.
      rewrite Hsend. cbn [logged].
      rewrite map_app, !map_map. reflexivity.
Qed.


(** The first part of a general transition, which calls no handler: the
    two chains are written into the scratch arrays and pruned. *)
Lemma setState_pruned (w : world State App) (s t : State) (up down u d c : list State) :
  currentState (hsm w) = s -> s <> t ->
  chain parent 16 s = Some up ->
  chain parent 16 t = Some down ->
  List.length (up_path w) = 16%nat ->
  List.length (down_path w) = 16%nat ->
  up = u ++ c -> down = d ++ c ->
  (u = [] \/ d = [] \/ last u <> last d) ->
  setState parent handler t w =
    after_pruning handler t (pruned u d) (with_paths up down w).
Proof.
  intros Hcur Hne Hup Hdown Lup Ldown Eu Ed Hdiv.
  pose proof (chain_length parent _ _ _ Hup) as Hlu.
  pose proof (chain_length parent _ _ _ Hdown) as Hld.
  destruct (chain_head parent _ _ _ Hup) as [up' Eup].
  destruct (chain_head parent _ _ _ Hdown) as [down' Edown].
  unfold setState.
  set (F := LOOP_FUEL) in *.
  assert (HF : (17 <= F)%nat) by (unfold F, LOOP_FUEL; lia).
  (* the two climbs *)
  rewrite (bind_step _ _ w w s []) by (unfold get_currentState; now rewrite Hcur).
  rewrite logged_nil, decide_False by assumption.
  rewrite (bind_step _ _ w w s []) by (unfold get_currentState; now rewrite Hcur).
  rewrite logged_nil.
  pose proof (write_ok UpPath 0 s w) as Hw0. change (Z.of_nat 0) with 0 in Hw0.
  rewrite (bind_step _ _ _ _ _ _ (Hw0 ltac:(lia) ltac:(simpl; lia))), logged_nil.
  clear Hw0.
  pose proof (climb_chain UpPath 16 s up F 0
                (set_path UpPath (<[0%nat:=s]> (path UpPath w)) w) Hup) as Hc1.
  change (Z.of_nat 0) with 0 in Hc1.
  rewrite (bind_step _ _ _ _ _ _ (Hc1
     ltac:(simpl; destruct (up_path w); [discriminate Lup | reflexivity])
     ltac:(lia) ltac:(simpl; rewrite length_insert; lia) ltac:(lia))), logged_nil.
  clear Hc1.
  cbn [path set_path up_path down_path hsm Hsm.app Nat.add firstn List.app].
  rewrite drop_insert_lt by lia.
  match goal with |- bind _ _ ?w1 = _ =>
    pose proof (write_ok DownPath 0 t w1) as Hw0 end.
  change (Z.of_nat 0) with 0 in Hw0.
  rewrite (bind_step _ _ _ _ _ _ (Hw0 ltac:(lia) ltac:(simpl; lia))), logged_nil.
  clear Hw0.
  match goal with |- bind _ _ ?w1 = _ =>
    pose proof (climb_chain DownPath 16 t down F 0 w1 Hdown) as Hc1 end.
  change (Z.of_nat 0) with 0 in Hc1.
  rewrite (bind_step _ _ _ _ _ _ (Hc1
     ltac:(simpl; destruct (down_path w); [discriminate Ldown | reflexivity])
     ltac:(lia) ltac:(simpl; rewrite length_insert; lia) ltac:(lia))), logged_nil.
  clear Hc1.
  cbn [path set_path up_path down_path hsm Hsm.app Nat.add firstn List.app].
  rewrite drop_insert_lt by lia.
  fold (with_paths up down w).
  (* the pruning *)
  assert (Hboth : ~ (u = [] /\ d = [])).
  { intros [-> ->]. simpl in Eu, Ed. congruence. }
  pose proof (prune_common c u d (drop (List.length up) (up_path w))
                (drop (List.length down) (down_path w)) F
                (with_paths up down w)) as Hp.
  rewrite <- Eu, <- Ed in Hp.
  replace (Z.of_nat (List.length up - 1)) with (Z.of_nat (List.length up) - 1) by lia.
  replace (Z.of_nat (List.length down - 1)) with (Z.of_nat (List.length down) - 1) by lia.
  rewrite (bind_step _ _ _ _ _ _ (Hp
     ltac:(simpl; rewrite Eu, <- app_assoc; reflexivity)
     ltac:(simpl; rewrite Ed, <- app_assoc; reflexivity)
     ltac:(lia) ltac:(lia) Hboth Hdiv
     ltac:(rewrite Eu, length_app in Hlu; lia))), logged_nil.
  clear Hp. subst F. unfold after_pruning, pruned.
  destruct u as [|? ?]; [|destruct d as [|? ?]]; reflexivity.
Qed.

(** *** Reading a log *)

Lemma fired_app (e : event_t) (l1 l2 : list (call State)) :
  fired e (l1 ++ l2) = fired e l1 ++ fired e l2.
Proof. unfold fired. apply omap_app. Qed.

Lemma fired_same (e : event_t) (l : list State) :
  fired e (map (fun x => Handler x e) l) = l.
Proof.
  induction l as [|x l IH]; [reflexivity|].
  simpl. unfold fired in *. simpl. rewrite decide_True by reflexivity.
  simpl. now rewrite IH.
Qed.

Lemma fired_other (e e' : event_t) (l : list State) :
  e' <> e -> fired e (map (fun x => Handler x e') l) = [].
Proof.
  intros Hne. induction l as [|x l IH]; [reflexivity|].
  simpl. unfold fired in *. simpl. rewrite decide_False by assumption.
  simpl. exact IH.
Qed.

(** Calls with another event are not calls with [e]. *)
Lemma fired_none (e e' : event_t) (cs : list (State * event_t)) :
  e' <> e -> Forall (fun c => snd c = e') cs ->
  fired e (map (fun c => Handler (fst c) (snd c)) cs) = [].
Proof.
  intros Hne. induction 1 as [|[x e0] cs Hx _ IH]; [reflexivity|].
  simpl in Hx. subst e0. unfold fired in *. simpl.
  rewrite decide_False by assumption. exact IH.
Qed.

Lemma fired_send (e e0 : event_t) (r : eventQueueError_t) :
  fired e ([DisableIrq; PutEvent e0 r; EnableIrq] : list (call State)) = [].
Proof. reflexivity. Qed.

Lemma transition_log (up down : list State) :
  map (fun c => Handler (fst c) (snd c)) (transition_calls up down) =
  map (fun x => Handler x HSM_ON_EXIT) (take 1 (exit_path up down)) ++
  map (fun x => Handler x HSM_ON_ENTRY) (entry_path up down).
Proof. unfold transition_calls. now rewrite map_app, !map_map. Qed.

Lemma fired_transition_exit (up down : list State) (e0 : event_t) (r : eventQueueError_t) :
  fired HSM_ON_EXIT
    (map (fun c => Handler (fst c) (snd c)) (transition_calls up down)
       ++ [DisableIrq; PutEvent e0 r; EnableIrq])
  = take 1 (exit_path up down).
Proof.
  rewrite transition_log, !fired_app, fired_same, fired_send.
  rewrite fired_other by (cbv; discriminate). now rewrite !app_nil_r.
Qed.

Lemma fired_transition_entry (up down : list State) (e0 : event_t) (r : eventQueueError_t) :
  fired HSM_ON_ENTRY
    (map (fun c => Handler (fst c) (snd c)) (transition_calls up down)
       ++ [DisableIrq; PutEvent e0 r; EnableIrq])
  = entry_path up down.
Proof.
  rewrite transition_log, !fired_app, fired_same, fired_send.
  rewrite fired_other by (cbv; discriminate). now rewrite !app_nil_r.
Qed.

Lemma transition_calls_actions (up down : list State) :
  Forall (fun c : State * event_t => snd c = HSM_ON_EXIT \/ snd c = HSM_ON_ENTRY)
         (transition_calls up down).
Proof.
  unfold transition_calls. apply Forall_app. split; apply Forall_map, Forall_true; auto.
Qed.

(** A general transition returns: the calls of [transition_calls], then the
    new current state, then the event [HSM_INITIAL] sent. *)
Lemma setState_general_runs (w : world State App) (s t : State) (up down : list State) :
  currentState (hsm w) = s -> s <> t ->
  chain parent 16 s = Some up ->
  chain parent 16 t = Some down ->
  List.length (up_path w) = 16%nat ->
  List.length (down_path w) = 16%nat ->
  Queue.wf (eventQueue (hsm w)) ->
  quiet_actions handler ->
  exists (r : eventQueueError_t) (q' : Queue.eventQueue_t),
    sendEvent HSM_INITIAL
      (set_currentState t
         (run_calls handler (transition_calls up down) (with_paths up down w)))
    = Ret (tt,
           set_eventQueue q'
             (set_currentState t
                (run_calls handler (transition_calls up down) (with_paths up down w))),
           [DisableIrq; PutEvent HSM_INITIAL r; EnableIrq]) /\
    setState parent handler t w =
      Ret (tt,
           set_eventQueue q'
             (set_currentState t
                (run_calls handler (transition_calls up down) (with_paths up down w))),
           map (fun c => Handler (fst c) (snd c)) (transition_calls up down)
             ++ [DisableIrq; PutEvent HSM_INITIAL r; EnableIrq]).
Proof.
  intros Hcur Hne Hup Hdown Lup Ldown Hwf Hq.
  destruct (run_calls_quiet (transition_calls up down) Hq
              (transition_calls_actions up down) (with_paths up down w)) as [_ Hwf1].
  specialize (Hwf1 Hwf).
  destruct (sendEvent_total HSM_INITIAL
              (set_currentState t
                 (run_calls handler (transition_calls up down) (with_paths up down w))))
    as (r & q' & Hsend & _); [exact Hwf1|].
  exists r, q'. split; [exact Hsend|].
  now apply (setState_general w s t up down).
Qed.

(** The exit actions of a general transition, as the code makes them: the
    current state is exited unless it is an ancestor of the destination,
    and no other state is. *)
Lemma setState_exit_actions (w : world State App) (s t : State) (up down : list State) :
  currentState (hsm w) = s -> s <> t ->
  chain parent 16 s = Some up ->
  chain parent 16 t = Some down ->
  last up = last down ->
  List.length (up_path w) = 16%nat ->
  List.length (down_path w) = 16%nat ->
  Queue.wf (eventQueue (hsm w)) ->
  quiet_actions handler ->
  exists (a : State) (w' : world State App) (log : list (call State)),
    lca up down = Some a /\
    setState parent handler t w = Ret (tt, w', log) /\
    fired HSM_ON_EXIT log = take 1 (below a up) /\
    (fired HSM_ON_EXIT log = [] <-> ancestor parent s t).
Proof.
  intros Hcur Hne Hup Hdown Hroot Lup Ldown Hwf Hq.
  destruct (setState_general_runs w s t up down) as (r & q' & _ & Hrun);
    try assumption.
  destruct (transition_paths parent _ _ _ _ _ _ Hup Hdown Hroot Hne)
    as (a & Hlca & Hex & Hen & _ & _).
  eexists a, _, _. split; [exact Hlca|]. split; [exact Hrun|].
  rewrite fired_transition_exit.
  unfold exit_path in *. rewrite Hlca in *. split; [reflexivity|].
  rewrite <- Hex. destruct (below a up); simpl; split; congruence.
Qed.

(** *** A general transition, whatever the handlers do *)

Lemma bind_inv {A B : Type} (m : M State App A) (k : A -> M State App B)
    (w w2 : world State App) (b : B) (l : list (call State)) :
  bind m k w = Ret (b, w2, l) ->
  exists (a : A) (w1 : world State App) (l1 l2 : list (call State)),
    m w = Ret (a, w1, l1) /\ k a w1 = Ret (b, w2, l2) /\ l = l1 ++ l2.
Proof.
  unfold bind. destruct (m w) as [[[a w1] l1]| |]; try discriminate.
  destruct (k a w1) as [[[b' w2'] l2]| |] eqn:Hk; simpl; try discriminate.
  intros [= <- <- <-]. exists a, w1, l1, l2. auto.
Qed.

Lemma read_inv (a : path_array) (i : Z) (w w' : world State App)
    (s : State) (l : list (call State)) :
  read a i w = Ret (s, w', l) -> w' = w /\ l = [].
Proof.
  unfold read. destruct ((0 <=? i) && (i <? PATH_DEPTH)); [|discriminate].
  destruct (path a w !! Z.to_nat i); [|discriminate].
  intros [= _ <- <-]. auto.
Qed.

(** Whatever the entry loop has done when it returns, it is a sequence of
    calls with [HSM_ON_ENTRY], each made in the memory the one before
    left. *)
Lemma entry_loop_inv (fuel : nat) :
  forall (i : Z) (w w' : world State App) (log : list (call State)),
    entry_loop handler fuel i w = Ret (tt, w', log) ->
    exists cs : list (State * event_t),
      Forall (fun c => snd c = HSM_ON_ENTRY) cs /\
      log = map (fun c => Handler (fst c) (snd c)) cs /\
      w' = run_calls handler cs w.
Proof.
  induction fuel as [|fuel IH]; intros i w w' log Hrun; [discriminate|].
  cbn [entry_loop] in Hrun. cbv zeta in Hrun.
  apply bind_inv in Hrun as (x & w1 & l1 & l2 & Hread & Hrun & ->).
  apply read_inv in Hread as [-> ->].
  apply bind_inv in Hrun as ([] & w2 & l3 & l4 & Hcall & Hrun & ->).
  unfold call_handler in Hcall. injection Hcall as <- <-.
  destruct (negb (u8 (i - 1) =? 0)).
  - apply IH in Hrun as (cs & Hall & -> & ->).
    exists ((x, HSM_ON_ENTRY) :: cs). split_and!; [|reflexivity..].
    constructor; [reflexivity | exact Hall].
  - unfold ret in Hrun. injection Hrun as <- <-.
    exists [(x, HSM_ON_ENTRY)]. split_and!; [|reflexivity..].
    constructor; [reflexivity | constructor].
Qed.

(** Actions that keep the scratch array [down_path] at its size let the
    entry loop return. *)
Lemma entry_loop_returns (k : nat) :
  forall (fuel : nat) (w : world State App),
    sound_actions handler ->
    (k < fuel)%nat -> (k < 16)%nat -> (k < List.length (down_path w))%nat ->
    exists (w' : world State App) (log : list (call State)),
      entry_loop handler fuel (Z.of_nat (S k)) w = Ret (tt, w', log).
Proof.
  induction k as [|k IH]; intros fuel w Hs Hfuel H16 Hlen.
  - destruct fuel as [|fuel]; [lia|]. cbn [entry_loop].
    change (u8 (Z.of_nat 1 - 1)) with (Z.of_nat 0).
    destruct (lookup_lt_is_Some_2 (down_path w) 0 Hlen) as [x Hx].
    rewrite (bind_step _ _ _ _ _ _ (read_ok DownPath 0 w x ltac:(lia) Hx)), logged_nil.
    eexists _, _. reflexivity.
  - destruct fuel as [|fuel]; [lia|]. cbn [entry_loop]. cbv zeta.
    replace (Z.of_nat (S (S k)) - 1) with (Z.of_nat (S k)) by lia.
    rewrite u8_small by lia.
    destruct (lookup_lt_is_Some_2 (down_path w) (S k) Hlen) as [x Hx].
    rewrite (bind_step _ _ _ _ _ _ (read_ok DownPath (S k) w x ltac:(lia) Hx)), logged_nil.
    rewrite (bind_step _ _ _ _ tt [Handler x HSM_ON_ENTRY] eq_refl).
    destruct (Z.eqb_spec (Z.of_nat (S k)) 0) as [|_]; [lia|].
    change (negb false) with true. cbv iota.
    destruct (Hs x HSM_ON_ENTRY w (or_intror eq_refl)) as [Hkeep _].
    destruct (IH fuel (handler x HSM_ON_ENTRY w) Hs ltac:(lia) ltac:(lia)
                ltac:(rewrite Hkeep; lia)) as (w' & log & ->).
    eexists _, _. reflexivity.
Qed.

Lemma run_calls_sound (cs : list (State * event_t)) :
  sound_actions handler ->
  Forall (fun c => snd c = HSM_ON_EXIT \/ snd c = HSM_ON_ENTRY) cs ->
  forall w : world State App,
    List.length (down_path (run_calls handler cs w)) = List.length (down_path w) /\
    (Queue.wf (eventQueue (hsm w)) ->
     Queue.wf (eventQueue (hsm (run_calls handler cs w)))).
Proof.
  intros Hs. induction 1 as [|[s e] cs He _ IH]; intros w; simpl; [tauto|].
  destruct (Hs s e w He) as [Hd Hw].
  destruct (IH (handler s e w)) as [Hd' Hw'].
  split; [congruence | tauto].
Qed.

(** What the second part of a general transition has done when it returns:
    the exit action of the state at index 0 of [up_path] unless the flag
    [no_exit] is set, then entry actions, then the new current state, then
    one push of [HSM_INITIAL] between the masking and the unmasking of the
    interrupts. *)
Lemma after_pruning_inv (t : State) (u d c ru rd : list State)
    (w0 w' : world State App) (log : list (call State)) :
  up_path w0 = u ++ c ++ ru ->
  (List.length (u ++ c) <= 16)%nat ->
  ~ (u = [] /\ d = []) ->
  after_pruning handler t (pruned u d) w0 = Ret (tt, w', log) ->
  exists (cs : list (State * event_t)) (r : eventQueueError_t)
         (q' : Queue.eventQueue_t),
    Forall (fun c => snd c = HSM_ON_ENTRY) cs /\
    log = map (fun c => Handler (fst c) (snd c))
              (map (fun x => (x, HSM_ON_EXIT)) (take 1 u) ++ cs)
          ++ [DisableIrq; PutEvent HSM_INITIAL r; EnableIrq] /\
    Queue.putEvent
      (eventQueue (hsm (run_calls handler
                          (map (fun x => (x, HSM_ON_EXIT)) (take 1 u) ++ cs) w0)))
      HSM_INITIAL = Ret (r, q') /\
    w' = set_eventQueue q'
           (set_currentState t
              (run_calls handler (map (fun x => (x, HSM_ON_EXIT)) (take 1 u) ++ cs) w0)).
Proof.
  intros Hu Lu Hboth Hrun.
  unfold after_pruning, pruned in Hrun.
  set (F := LOOP_FUEL) in *.
  assert (HF : (17 <= F)%nat) by (unfold F, LOOP_FUEL; lia).
  clearbody F.
  assert (Hfinish : forall (w1 w2 : world State App) (l : list (call State)),
            bind (put_currentState t) (fun _ => sendEvent HSM_INITIAL) w1
              = Ret (tt, w2, l) ->
            exists r q', Queue.putEvent (eventQueue (hsm w1)) HSM_INITIAL = Ret (r, q') /\
                         w2 = set_eventQueue q' (set_currentState t w1) /\
                         l = [DisableIrq; PutEvent HSM_INITIAL r; EnableIrq]).
  { intros w1 w2 l Hb.
    apply bind_inv in Hb as ([] & w3 & l1 & l2 & Hput & Hsend & ->).
    unfold put_currentState in Hput. injection Hput as <- <-.
    apply sendEvent_inv in Hsend as (r & q' & Hp & -> & ->). eauto. }
  destruct u as [|s0 u].
  - (* no exit action *)
    destruct d as [|t0 d]; [tauto|].
    cbn [eqb] in Hrun.
    apply bind_inv in Hrun as ([] & w1 & l1 & l2 & Hnone & Hrun & ->).
    unfold ret in Hnone. injection Hnone as <- <-.
    apply bind_inv in Hrun as ([] & w2 & l3 & l4 & Hentry & Hrun & ->).
    apply entry_loop_inv in Hentry as (cs & Hall & -> & ->).
    apply Hfinish in Hrun as (r & q' & Hput & -> & ->).
    exists cs, r, q'. split_and!; try assumption; reflexivity.
  - assert (Hs0 : up_path w0 !! 0%nat = Some s0) by now rewrite Hu.
    assert (Hexit : forall cz, 0 <= cz < 255 ->
              exit_loop handler F 0 cz w0
                = Ret (tt, handler s0 HSM_ON_EXIT w0, [Handler s0 HSM_ON_EXIT])).
    { intros cz Hcz. apply exit_loop_once; [lia | exact Hcz | exact Hs0]. }
    rewrite length_app in Lu. simpl in Lu.
    change (take 1 (s0 :: u)) with [s0].
    destruct d as [|t0 d].
    + (* no entry action *)
      cbn [eqb] in Hrun.
      apply bind_inv in Hrun as ([] & w1 & l1 & l2 & Hex & Hrun & ->).
      rewrite Hexit in Hex by (simpl List.length; lia). injection Hex as <- <-.
      apply bind_inv in Hrun as ([] & w2 & l3 & l4 & Hnone & Hrun & ->).
      unfold ret in Hnone. injection Hnone as <- <-.
      apply Hfinish in Hrun as (r & q' & Hput & -> & ->).
      exists [], r, q'. split_and!; try assumption; [constructor | reflexivity..].
    + cbn [eqb] in Hrun.
      apply bind_inv in Hrun as ([] & w1 & l1 & l2 & Hex & Hrun & ->).
      rewrite Hexit in Hex by (simpl List.length; lia). injection Hex as <- <-.
      apply bind_inv in Hrun as ([] & w2 & l3 & l4 & Hentry & Hrun & ->).
      apply entry_loop_inv in Hentry as (cs & Hall & -> & ->).
      apply Hfinish in Hrun as (r & q' & Hput & -> & ->).
      exists cs, r, q'. split_and!; try assumption; reflexivity.
Qed.

(** With actions that keep the memory of the engine in shape, the second
    part of a general transition returns. *)
Lemma after_pruning_returns (t : State) (u d c ru rd : list State)
    (w0 : world State App) :
  up_path w0 = u ++ c ++ ru ->
  down_path w0 = d ++ c ++ rd ->
  (List.length (u ++ c) <= 16)%nat ->
  (List.length (d ++ c) <= 16)%nat ->
  ~ (u = [] /\ d = []) ->
  sound_actions handler ->
  Queue.wf (eventQueue (hsm w0)) ->
  exists (w' : world State App) (log : list (call State)),
    after_pruning handler t (pruned u d) w0 = Ret (tt, w', log).
Proof.
  intros Hu Hd Lu Ld Hboth Hs Hwf.
  unfold after_pruning, pruned.
  set (F := LOOP_FUEL) in *.
  assert (HF : (17 <= F)%nat) by (unfold F, LOOP_FUEL; lia).
  clearbody F.
  assert (Hfinish : forall w1 : world State App,
            Queue.wf (eventQueue (hsm w1)) ->
            exists w2 l,
              bind (put_currentState t) (fun _ => sendEvent HSM_INITIAL) w1
                = Ret (tt, w2, l)).
  { intros w1 Hwf1.
    rewrite (bind_step _ _ _ _ tt [] eq_refl), logged_nil.
    destruct (sendEvent_total HSM_INITIAL (set_currentState t w1) Hwf1)
      as (r & q' & -> & _). eauto. }
  assert (Hentry : forall w1 : world State App,
            List.length (down_path w1) = List.length (down_path w0) ->
            Queue.wf (eventQueue (hsm w1)) ->
            forall t0 d0, d = t0 :: d0 ->
            exists w2 l,
              bind (entry_loop handler F (Z.of_nat (S (List.length d0))))
                   (fun _ => bind (put_currentState t) (fun _ => sendEvent HSM_INITIAL))
                   w1 = Ret (tt, w2, l)).
  { intros w1 Hl1 Hwf1 t0 d0 ->.
    rewrite length_app in Ld. simpl in Ld.
    destruct (entry_loop_returns (List.length d0) F w1 Hs ltac:(lia) ltac:(lia))
      as (w2 & l2 & Hrun).
    { rewrite Hl1, Hd, length_app. simpl. lia. }
    pose proof Hrun as Hrun'.
    apply entry_loop_inv in Hrun' as (cs & Hall & _ & ->).
    rewrite (bind_step _ _ _ _ _ _ Hrun).
    destruct (run_calls_sound cs Hs
                (Forall_impl _ _ _ Hall (fun c H => or_intror H)) w1) as [_ Hwf2].
    destruct (Hfinish _ (Hwf2 Hwf1)) as (w3 & l3 & ->). eauto. }
  destruct u as [|s0 u].
  - destruct d as [|t0 d]; [tauto|].
    cbn [eqb]. rewrite (bind_step _ _ _ _ tt [] eq_refl), logged_nil.
    cbn [List.length]. replace (Z.of_nat (S (List.length d)) - 1 + 1)
      with (Z.of_nat (S (List.length d))) by lia.
    rewrite length_app in Ld. simpl in Ld.
    rewrite u8_small by lia.
    apply (Hentry w0 eq_refl Hwf t0 d eq_refl).
  - assert (Hs0 : up_path w0 !! 0%nat = Some s0) by now rewrite Hu.
    rewrite length_app in Lu. simpl in Lu.
    destruct (Hs s0 HSM_ON_EXIT w0 (or_introl eq_refl)) as [Hkeep Hwfk].
    destruct d as [|t0 d].
    + cbn [eqb].
      rewrite (bind_step _ _ _ _ _ _ (exit_loop_once F
                 (Z.of_nat (List.length (s0 :: u)) - 1) w0 s0
                 ltac:(lia) ltac:(simpl List.length; lia) Hs0)).
      rewrite (bind_step _ _ _ _ tt [] eq_refl), logged_nil.
      destruct (Hfinish _ (Hwfk Hwf)) as (w3 & l3 & ->). eauto.
    + cbn [eqb].
      rewrite (bind_step _ _ _ _ _ _ (exit_loop_once F
                 (Z.of_nat (List.length (s0 :: u)) - 1) w0 s0
                 ltac:(lia) ltac:(simpl List.length; lia) Hs0)).
      cbn [List.length]. replace (Z.of_nat (S (List.length d)) - 1 + 1)
        with (Z.of_nat (S (List.length d))) by lia.
      rewrite length_app in Ld. simpl in Ld.
      rewrite u8_small by lia.
      destruct (Hentry _ Hkeep (Hwfk Hwf) t0 d eq_refl) as (w2 & l2 & ->). eauto.
Qed.

(** What a general transition has done when it returns, whatever the
    handlers do. *)
Lemma setState_general_inv (w w' : world State App) (s t : State)
    (up down : list State) (log : list (call State)) :
  currentState (hsm w) = s -> s <> t ->
  chain parent 16 s = Some up ->
  chain parent 16 t = Some down ->
  List.length (up_path w) = 16%nat ->
  List.length (down_path w) = 16%nat ->
  setState parent handler t w = Ret (tt, w', log) ->
  exists (cs : list (State * event_t)) (r : eventQueueError_t)
         (q' : Queue.eventQueue_t),
    Forall (fun c => snd c = HSM_ON_ENTRY) cs /\
    log = map (fun c => Handler (fst c) (snd c))
              (map (fun x => (x, HSM_ON_EXIT)) (take 1 (exit_path up down)) ++ cs)
          ++ [DisableIrq; PutEvent HSM_INITIAL r; EnableIrq] /\
    Queue.putEvent
      (eventQueue
         (hsm (run_calls handler
                 (map (fun x => (x, HSM_ON_EXIT)) (take 1 (exit_path up down)) ++ cs)
                 (with_paths up down w))))
      HSM_INITIAL = Ret (r, q') /\
    w' = set_eventQueue q'
           (set_currentState t
              (run_calls handler
                 (map (fun x => (x, HSM_ON_EXIT)) (take 1 (exit_path up down)) ++ cs)
                 (with_paths up down w))).
Proof.
  intros Hcur Hne Hup Hdown Lup Ldown Hrun.
  destruct (common_suffix_split up down) as (u & d & c & Eu & Ed & Hdiv).
  destruct (paths_cut parent _ _ _ _ _ _ _ _ _ Hup Hdown Eu Ed Hdiv)
    as (Hex & _ & _ & _).
  rewrite (setState_pruned w s t up down u d c) in Hrun by assumption.
  pose proof (chain_length parent _ _ _ Hup) as Hlu.
  rewrite Hex.
  apply (after_pruning_inv t u d c (drop (List.length up) (up_path w)) []);
    try assumption.
  - simpl. rewrite Eu, <- app_assoc. reflexivity.
  - rewrite <- Eu. lia.
  - intros [-> ->]. simpl in Eu, Ed.
    destruct (chain_head parent _ _ _ Hup) as [? Hu'].
    destruct (chain_head parent _ _ _ Hdown) as [? Hd']. congruence.
Qed.

(** With actions that keep the memory of the engine in shape, a general
    transition returns. *)
Lemma setState_general_returns (w : world State App) (s t : State)
    (up down : list State) :
  currentState (hsm w) = s -> s <> t ->
  chain parent 16 s = Some up ->
  chain parent 16 t = Some down ->
  List.length (up_path w) = 16%nat ->
  List.length (down_path w) = 16%nat ->
  sound_actions handler ->
  Queue.wf (eventQueue (hsm w)) ->
  exists (w' : world State App) (log : list (call State)),
    setState parent handler t w = Ret (tt, w', log).
Proof.
  intros Hcur Hne Hup Hdown Lup Ldown Hs Hwf.
  destruct (common_suffix_split up down) as (u & d & c & Eu & Ed & Hdiv).
  rewrite (setState_pruned w s t up down u d c) by assumption.
  pose proof (chain_length parent _ _ _ Hup) as Hlu.
  pose proof (chain_length parent _ _ _ Hdown) as Hld.
  apply (after_pruning_returns t u d c (drop (List.length up) (up_path w))
           (drop (List.length down) (down_path w))); try assumption.
  - simpl. rewrite Eu, <- app_assoc. reflexivity.
  - simpl. rewrite Ed, <- app_assoc. reflexivity.
  - rewrite <- Eu. lia.
  - rewrite <- Ed. lia.
  - intros [-> ->]. simpl in Eu, Ed.
    destruct (chain_head parent _ _ _ Hup) as [? Hu'].
    destruct (chain_head parent _ _ _ Hdown) as [? Hd']. congruence.
Qed.

Lemma quiet_actions_sound : quiet_actions handler -> sound_actions handler.
Proof.
  intros Hq s e w He. destruct (Hq s e w He) as [Hd Hw].
  split; [now rewrite Hd | exact Hw].
Qed.


(** *** The dispatch loop *)

Lemma getEvent_cases (q q' : Queue.eventQueue_t) (ev e : event_t) (r : eventQueueError_t) :
  Queue.getEvent q ev = Ret (r, q', e) ->
  (r = QUEUE_OK /\ Queue.empty q = false /\
   forall ev', Queue.getEvent q ev' = Ret (QUEUE_OK, q', e)) \/
  (r = QUEUE_EMPTY /\ Queue.empty q = true /\ q' = q /\ e = ev).
Proof.
  unfold Queue.getEvent. destruct (Queue.empty q); simpl.
  - intros [= <- <- <-]. right. auto.
  - destruct (Queue.load (Queue.queue q) (Queue.tail q)); try discriminate.
    intros [= <- <- <-]. left. auto.
Qed.

Lemma calls_log_inj (l l' : list (State * event_t)) :
  map (fun c => Handler (fst c) (snd c)) l = map (fun c => Handler (fst c) (snd c)) l' ->
  l = l'.
Proof.
  revert l'. induction l as [|[s e] l IH]; intros [|[s' e'] l']; simpl; try discriminate.
  - reflexivity.
  - intros [= -> -> Hl]. f_equal. now apply IH.
Qed.

(** What [processHSM] returns is a drain of the queue. *)
Lemma processHSM_sound (fuel : nat) :
  forall (ev : event_t) (w w' : world State App) (log : list (call State)),
    processHSM handler fuel ev w = Ret (tt, w', log) ->
    exists l : list (State * event_t),
      log = map (fun c => Handler (fst c) (snd c)) l /\
      drains handler w l w' /\ (List.length l < fuel)%nat.
Proof.
  induction fuel as [|fuel IH]; intros ev w w' log; [discriminate|].
  simpl. unfold bind at 1. unfold get_event.
  destruct (Queue.getEvent (eventQueue (hsm w)) ev) as [[[r q] e]| |] eqn:Hget;
    try discriminate.
  destruct (getEvent_cases _ _ _ _ _ Hget) as [(-> & Hne & Hany)|(-> & He & -> & ->)].
  - rewrite decide_True by discriminate.
    unfold bind, get_currentState, call_handler. simpl.
    destruct (processHSM handler fuel e
                (handler (currentState (hsm w)) e (set_eventQueue q w)))
      as [[[[] w2] l2]| |] eqn:Hrec; try discriminate.
    intros [= <- <-].
    destruct (IH _ _ _ _ Hrec) as (l & -> & Hd & Hlen).
    exists ((currentState (hsm w), e) :: l). split; [reflexivity|].
    split; [|simpl; lia].
    eapply drains_step; [exact Hget | exact Hd].
  - rewrite decide_False by tauto. unfold ret.
    rewrite set_eventQueue_same. intros [= <- <-].
    exists []. split; [reflexivity|]. split; [|simpl; lia].
    eapply drains_stop. exact Hget.
Qed.

(** A drain of the queue is what [processHSM] returns, given the fuel. *)
Lemma processHSM_complete (w w' : world State App) (l : list (State * event_t)) :
  drains handler w l w' ->
  forall (fuel : nat) (ev : event_t),
    (List.length l < fuel)%nat ->
    processHSM handler fuel ev w =
      Ret (tt, w', map (fun c => Handler (fst c) (snd c)) l).
Proof.
  induction 1 as [w q ev0 ev1 Hget|w w' q ev0 e l Hget Hd IH]; intros fuel ev Hfuel.
  - destruct fuel as [|fuel]; [lia|].
    destruct (getEvent_cases _ _ _ _ _ Hget) as [(? & _)|(_ & He & _)]; [discriminate|].
    simpl. unfold bind, get_event. rewrite getEvent_empty by assumption.
    rewrite decide_False by tauto. unfold ret. now rewrite set_eventQueue_same.
  - destruct fuel as [|fuel]; [lia|]. simpl in Hfuel.
    destruct (getEvent_cases _ _ _ _ _ Hget) as [(_ & _ & Hany)|(? & _)]; [|discriminate].
    simpl. unfold bind at 1. unfold get_event. rewrite Hany.
    rewrite decide_True by discriminate.
    unfold bind, get_currentState, call_handler. simpl.
    rewrite IH by lia. reflexivity.
Qed.

Lemma drains_empty (w w' : world State App) (l : list (State * event_t)) :
  drains handler w l w' -> Queue.empty (eventQueue (hsm w')) = true.
Proof.
  induction 1 as [w q ev0 ev1 Hget|w w' q ev0 e l Hget Hd IH]; [|exact IH].
  destruct (getEvent_cases _ _ _ _ _ Hget) as [(? & _)|(_ & He & _)];
    [discriminate | exact He].
Qed.


(** ** The transitions, the dispatch loop and the initialisation *)

(** C2. In a general transition from [s] to [t], two states of one
    hierarchy whose chains [up] and [down] reach the root within 16 levels,
    with exit and entry actions that leave [down_path] and the shape of
    the queue alone (they do not call [setState] themselves), [setState]
    returns and calls the handlers with [HSM_ON_ENTRY] on the nodes of
    [down] below the least common ancestor [a], each once, the child of [a]
    first and [t] last; it makes no such call exactly when [t] is an
    ancestor of [s]. *)
Theorem setState_entry_actions
    (w : world State App) (s t : State) (up down : list State) :
  currentState (hsm w) = s -> s <> t ->
  chain parent 16 s = Some up ->
  chain parent 16 t = Some down ->
  last up = last down ->
  List.length (up_path w) = 16%nat ->
  List.length (down_path w) = 16%nat ->
  Queue.wf (eventQueue (hsm w)) ->
  quiet_actions handler ->
  exists (a : State) (w' : world State App) (log : list (call State)),
    lca up down = Some a /\
    setState parent handler t w = Ret (tt, w', log) /\
    fired HSM_ON_ENTRY log = rev (below a down) /\
    NoDup (rev (below a down)) /\
    (fired HSM_ON_ENTRY log = [] <-> ancestor parent t s).
Proof.
  intros Hcur Hne Hup Hdown Hroot Lup Ldown Hwf Hq.
  destruct (setState_general_runs w s t up down) as (r & q' & _ & Hrun);
    try assumption.
  destruct (transition_paths parent _ _ _ _ _ _ Hup Hdown Hroot Hne)
    as (a & Hlca & _ & Hen & _ & Hnd).
  eexists a, _, _. split; [exact Hlca|]. split; [exact Hrun|].
  rewrite fired_transition_entry.
  unfold entry_path in *. rewrite Hlca in *. auto.
Qed.



(** C5. [processHSM] returns exactly the drains of the queue: it pops
    until a pop reports [QUEUE_EMPTY], and gives each event popped to the
    handler of the state that is current at that moment, in the memory the
    handler called before left. So the queue is empty when it returns,
    whatever the handlers have pushed meanwhile. *)
Theorem processHSM_drains (w w' : world State App) (l : list (State * event_t)) :
  (drains handler w l w' <->
   forall (fuel : nat) (ev : event_t),
     (List.length l < fuel)%nat ->
     processHSM handler fuel ev w =
       Ret (tt, w', map (fun c => Handler (fst c) (snd c)) l)) /\
  (drains handler w l w' -> Queue.empty (eventQueue (hsm w')) = true).
Proof.
  split; [split|].
  - apply processHSM_complete.
  - intros Hp. specialize (Hp (S (List.length l)) 0 (Nat.lt_succ_diag_r _)).
    destruct (processHSM_sound _ _ _ _ _ Hp) as (l0 & Hl & Hd & _).
    apply calls_log_inj in Hl. now subst l0.
  - apply drains_empty.
Qed.

(** C9. [initHSM] makes a machine of the initial state and of the queue,
    and calls the handler of the initial state with [HSM_INITIAL], in a
    memory where the queue is as it was given: that is the only call, so
    no handler is called with [HSM_ON_ENTRY], and nothing is pushed. *)
Theorem initHSM_calls (w : world State App) (s : State) (q : Queue.eventQueue_t) :
  initHSM handler s q w =
    Ret (tt,
         handler s HSM_INITIAL (mkWorld (mkHsm s q) (up_path w) (down_path w) (app w)),
         [Handler s HSM_INITIAL]) /\
  fired HSM_ON_ENTRY [Handler s HSM_INITIAL] = [].
Proof. split; reflexivity. Qed.

(** C10. [sendEvent] returns nothing. On a full queue it leaves the whole
    memory as it was, whatever the event: the event is lost and the caller
    cannot tell. So is the [HSM_INITIAL] of a transition when the queue
    that the actions leave is full: the transition returns with the new
    current state and that queue. *)
Theorem sendEvent_drops_silently :
  (forall (w : world State App) (e : event_t),
     Queue.full (eventQueue (hsm w)) = true ->
     sendEvent e w = Ret (tt, w, [DisableIrq; PutEvent e QUEUE_FULL; EnableIrq])) /\
  (forall (w : world State App) (s t : State) (up down : list State),
     currentState (hsm w) = s -> s <> t ->
     chain parent 16 s = Some up ->
     chain parent 16 t = Some down ->
     List.length (up_path w) = 16%nat ->
     List.length (down_path w) = 16%nat ->
     quiet_actions handler ->
     Queue.full (eventQueue (hsm (run_calls handler (transition_calls up down)
                                    (with_paths up down w)))) = true ->
     setState parent handler t w =
       Ret (tt,
            set_currentState t
              (run_calls handler (transition_calls up down) (with_paths up down w)),
            map (fun c => Handler (fst c) (snd c)) (transition_calls up down)
              ++ [DisableIrq; PutEvent HSM_INITIAL QUEUE_FULL; EnableIrq])).
Proof.
  split.
  - intros w e Hf. now apply sendEvent_full.
  - intros w s t up down Hcur Hne Hup Hdown Lup Ldown Hq Hf.
    apply (setState_general w s t up down); try assumption.
    now apply sendEvent_full.
Qed.


End EngineFacts.

(** ** The queue as the specification describes it *)

Section QueueClaims.

Import Queue.

Lemma wf_full_not_empty (q : eventQueue_t) : wf q -> full q = true -> empty q = false.
Proof.
  intros [Hl Hb Hh Ht Heq Hne] Hf.
  destruct (Z.eq_dec (head q) (tail q)) as [E|E].
  - specialize (Heq E). rewrite Hf in Heq. destruct (empty q); [discriminate|reflexivity].
  - destruct (Hne E). congruence.
Qed.

(** C6. A queue of capacity [C] behaves as a list of at most [C] events
    that is pushed at the back and popped at the front: whatever the
    sequence of pushes and pops, each operation returns what it returns on
    that list, so the pops give the events in the order of the pushes that
    were accepted, also when the indices have gone round the buffer. *)
Theorem queue_fifo (buffer : list event_t) (C : Z) (ops : list op) :
  1 <= C <= 255 ->
  C <= Z.of_nat (List.length buffer) ->
  exists q' : eventQueue_t,
    run (initEventQueue buffer C) ops = Ret (fst (fifo_run (Z.to_nat C) [] ops), q') /\
    contents q' = snd (fifo_run (Z.to_nat C) [] ops).
Proof.
  intros HC Hb.
  destruct (run_refines ops (initEventQueue buffer C) (wf_initEventQueue buffer C HC Hb))
    as (q' & Hrun & _ & _ & Hc).
  exists q'. split; assumption.
Qed.

(** C7. A push on a queue whose [full] flag is set returns [QUEUE_FULL]
    and leaves the queue as it is. Pushes on a new queue are accepted as
    long as they fit, and the queue is full exactly when as many events as
    its capacity have been pushed. A pop on a full queue then makes room
    for one push, after which the queue is full again. *)
Theorem putEvent_full_rejects :
  (forall (q : eventQueue_t) (e : event_t),
     full q = true -> putEvent q e = Ret (QUEUE_FULL, q)) /\
  (forall (buffer : list event_t) (C : Z) (es : list event_t),
     1 <= C <= 255 ->
     C <= Z.of_nat (List.length buffer) ->
     (List.length es <= Z.to_nat C)%nat ->
     exists q : eventQueue_t,
       run (initEventQueue buffer C) (map Push es)
         = Ret (map (fun _ => Pushed QUEUE_OK) es, q) /\
       wf q /\ contents q = es /\
       (full q = true <-> List.length es = Z.to_nat C)) /\
  (forall (q : eventQueue_t) (e1 e2 ev : event_t),
     wf q -> full q = true ->
     exists (q1 q2 : eventQueue_t) (x : event_t),
       getEvent q ev = Ret (QUEUE_OK, q1, x) /\ full q1 = false /\
       putEvent q1 e1 = Ret (QUEUE_OK, q2) /\ full q2 = true /\
       putEvent q2 e2 = Ret (QUEUE_FULL, q2) /\
       contents q = x :: contents q1 /\ contents q2 = contents q1 ++ [e1]).
Proof.
  split_and!.
  - apply putEvent_full.
  - intros buffer C es HC Hb Hes.
    pose proof (wf_initEventQueue buffer C HC Hb) as Hwf.
    destruct (run_refines (map Push es) _ Hwf) as (q & Hrun & Hwfq & Hlen & Hc).
    simpl in Hrun, Hc, Hlen.
    rewrite contents_initEventQueue, fifo_run_pushes in * by (simpl; lia).
    simpl in *. exists q. split_and!; try assumption.
    rewrite (wf_full_count q Hwfq), <- length_contents, Hc, Hlen. reflexivity.
  - intros q e1 e2 ev Hwf Hf.
    pose proof (wf_full_not_empty q Hwf Hf) as He.
    destruct (getEvent_ok q ev Hwf He) as (q1 & x & Hget & Hwf1 & Hlen1 & Hc1).
    pose proof (proj1 (wf_full_count q Hwf) Hf) as Hcount.
    pose proof (length_contents q) as Hlq. rewrite Hc1 in Hlq. simpl in Hlq.
    rewrite length_contents in Hlq.
    assert (Hf1 : full q1 = false).
    { destruct (full q1) eqn:E; [|reflexivity].
      apply (wf_full_count q1 Hwf1) in E. lia. }
    destruct (putEvent_ok q1 e1 Hwf1 Hf1) as (q2 & Hput & Hwf2 & Hlen2 & Hc2).
    assert (Hf2 : full q2 = true).
    { apply (wf_full_count q2 Hwf2).
      rewrite <- length_contents, Hc2, length_app, length_contents. simpl. lia. }
    exists q1, q2, x. split_and!; try assumption.
    now apply putEvent_full.
Qed.

(** C8. The two flags are never both set: not after [initEventQueue],
    and not after a push or a pop, accepted or not, on a queue where they
    were not. In any queue reached from a new one of capacity [C], equal
    indices come with exactly one of the two flags. *)
Theorem flags_invariant :
  (forall (buffer : list event_t) (len : Z), flags_ok (initEventQueue buffer len)) /\
  (forall (q q' : eventQueue_t) (e : event_t) (r : eventQueueError_t),
     flags_ok q -> putEvent q e = Ret (r, q') -> flags_ok q') /\
  (forall (q q' : eventQueue_t) (ev e : event_t) (r : eventQueueError_t),
     flags_ok q -> getEvent q ev = Ret (r, q', e) -> flags_ok q') /\
  (forall (buffer : list event_t) (C : Z) (ops : list op),
     1 <= C <= 255 ->
     C <= Z.of_nat (List.length buffer) ->
     exists (xs : list obs) (q : eventQueue_t),
       run (initEventQueue buffer C) ops = Ret (xs, q) /\
       flags_ok q /\
       (head q = tail q ->
        (full q = true /\ empty q = false) \/ (full q = false /\ empty q = true))).
Proof.
  split_and!.
  - intros buffer len [H _]. discriminate H.
  - intros q q' e r Hok. unfold putEvent.
    destruct (full q) eqn:Hf; simpl.
    + intros [= <- <-]. exact Hok.
    + destruct (store (queue q) (head q) e); try discriminate.
      intros [= <- <-] [_ H]. discriminate H.
  - intros q q' ev e r Hok. unfold getEvent.
    destruct (empty q) eqn:He; simpl.
    + intros [= <- <- <-]. exact Hok.
    + destruct (load (queue q) (tail q)); try discriminate.
      intros [= <- <- <-] [H _]. discriminate H.
  - intros buffer C ops HC Hb.
    destruct (run_refines ops _ (wf_initEventQueue buffer C HC Hb))
      as (q & Hrun & Hwf & _ & _).
    eexists _, q. split; [exact Hrun|].
    destruct Hwf as [_ _ _ _ Heq Hne]. split.
    + intros [Hf He]. destruct (Z.eq_dec (head q) (tail q)) as [E|E].
      * specialize (Heq E). rewrite Hf, He in Heq. discriminate.
      * destruct (Hne E). congruence.
    + intros E. specialize (Heq E).
      destruct (full q), (empty q); try discriminate; auto.
Qed.

End QueueClaims.

(** ** The engine on the hierarchy [Demo] *)

Section DemoRuns.

Import Hsm Demo.

Lemma quiet_is_quiet : quiet_actions quiet.
Proof. intros s e w _. split; [reflexivity | exact (fun H => H)]. Qed.

Lemma machine_queue_wf (s : state) :
  Queue.wf (eventQueue (hsm (machine s []))).
Proof. apply wf_initEventQueue; simpl; lia. Qed.

(** C1. The transition from [A11] to [B] under the root: the exit path is
    [A11], [A1], [A], and the code calls the handler with [HSM_ON_EXIT] on
    [A11] only; the counter of the exit loop is decremented, from 0 to 255,
    and the loop stops after its first turn. *)
Theorem setState_exit_stops_after_first :
  chain parent 16 A11 = Some [A11; A1; A; Root] /\
  chain parent 16 B = Some [B; Root] /\
  exit_path [A11; A1; A; Root] [B; Root] = [A11; A1; A] /\
  exists w' : world state unit,
    setState parent quiet B (machine A11 []) =
      Ret (tt, w', [Handler A11 HSM_ON_EXIT; Handler B HSM_ON_ENTRY;
                    DisableIrq; PutEvent HSM_INITIAL QUEUE_OK; EnableIrq]) /\
    fired HSM_ON_EXIT [Handler A11 HSM_ON_EXIT; Handler B HSM_ON_ENTRY;
                       DisableIrq; PutEvent HSM_INITIAL QUEUE_OK; EnableIrq] = [A11].
Proof.
  split_and!; try reflexivity.
  eexists. split; vm_compute; reflexivity.
Qed.

(** C2, as the specification has it, does not hold of every handler.  The
    handler of [A1] answers [HSM_ON_ENTRY] with the transition to [A2]; in the
    transition from [B] to [A11] that call of [setState] writes the chain
    of [A2] over [down_path], and the entry loop of the first call, which
    has entered [A] and [A1], reads [A2] where [A11] was.  The calls the
    handlers have noted show it: [A] and [A2] are entered twice, and [A11],
    the current state at the end, is not entered. *)
Lemma setState_entry_reentrant :
  chain parent 16 B = Some [B; Root] /\
  chain parent 16 A11 = Some [A11; A1; A; Root] /\
  lca [B; Root] [A11; A1; A; Root] = Some Root /\
  rev (below Root [A11; A1; A; Root]) = [A; A1; A11] /\
  exists (w' : world state (list (state * event_t))) (log : list (call state)),
    setState parent Reentry.reentering A11 (Reentry.machine B) = Ret (tt, w', log) /\
    fired HSM_ON_ENTRY log = [A; A1; A2] /\
    fired HSM_ON_ENTRY log <> rev (below Root [A11; A1; A; Root]) /\
    app w' = [(B, HSM_ON_EXIT); (A, HSM_ON_ENTRY); (A1, HSM_ON_ENTRY);
              (B, HSM_ON_EXIT); (A, HSM_ON_ENTRY); (A2, HSM_ON_ENTRY);
              (A2, HSM_ON_ENTRY)] /\
    currentState (hsm w') = A11 /\
    Queue.contents (eventQueue (hsm w')) = [HSM_INITIAL; HSM_INITIAL].
Proof.
  split_and!; try reflexivity.
  eexists _, _. split_and!; [vm_compute; reflexivity | reflexivity | | reflexivity..].
  vm_compute. discriminate.
Qed.

Lemma setState_entry_actions_witness :
  exists (a : state) (w' : world state unit) (log : list (call state)),
    lca [B; Root] [A11; A1; A; Root] = Some a /\
    setState parent quiet A11 (machine B []) = Ret (tt, w', log) /\
    fired HSM_ON_ENTRY log = rev (below a [A11; A1; A; Root]) /\
    NoDup (rev (below a [A11; A1; A; Root])) /\
    (fired HSM_ON_ENTRY log = [] <-> ancestor parent A11 B).
Proof.
  apply (setState_entry_actions parent quiet (machine B []) B A11
           [B; Root] [A11; A1; A; Root]); try reflexivity.
  - discriminate.
  - apply machine_queue_wf.
  - apply quiet_is_quiet.
Defined.


Lemma quiet_is_sound : sound_actions quiet.
Proof. intros s e w _. split; [reflexivity | exact (fun H => H)]. Qed.


Lemma processHSM_drains_witness :
  exists w' : world state unit,
    processHSM reacting 3 0 (machine A1 [GO]) =
      Ret (tt, w', [Handler A1 GO; Handler B HSM_INITIAL]) /\
    currentState (hsm w') = B /\
    Queue.empty (eventQueue (hsm w')) = true.
Proof.
  eexists. split; [|split].
  - apply (proj1 (proj1 (processHSM_drains reacting (machine A1 [GO]) _
                           [(A1, GO); (B, HSM_INITIAL)]))); [|simpl; lia].
    eapply drains_step with (ev := 0); [reflexivity|].
    eapply drains_step with (ev := 0); [reflexivity|].
    eapply drains_stop with (ev := 0). reflexivity.
  - reflexivity.
  - reflexivity.
Defined.

Lemma sendEvent_drops_silently_witness :
  sendEvent GO (machine A1 [GO; GO; GO; GO])
    = Ret (tt, machine A1 [GO; GO; GO; GO],
           [DisableIrq; PutEvent GO QUEUE_FULL; EnableIrq]) /\
  setState parent quiet A2 (machine A1 [GO; GO; GO; GO]) =
    Ret (tt,
         set_currentState A2
           (run_calls quiet (transition_calls [A1; A; Root] [A2; A; Root])
              (with_paths [A1; A; Root] [A2; A; Root] (machine A1 [GO; GO; GO; GO]))),
         map (fun c => Handler (fst c) (snd c))
             (transition_calls [A1; A; Root] [A2; A; Root])
           ++ [DisableIrq; PutEvent HSM_INITIAL QUEUE_FULL; EnableIrq]).
Proof.
  split.
  - apply (proj1 (sendEvent_drops_silently parent quiet)). reflexivity.
  - apply (proj2 (sendEvent_drops_silently parent quiet)
             (machine A1 [GO; GO; GO; GO]) A1 A2 [A1; A; Root] [A2; A; Root]);
      try reflexivity.
    + discriminate.
    + apply quiet_is_quiet.
Defined.

End DemoRuns.

Section QueueRunsDemo.

Import Queue.

Lemma queue_fifo_witness :
  exists q' : eventQueue_t,
    run (initEventQueue [0; 0; 0; 0] 4)
        [Push 11; Push 12; Push 13; Push 14; Push 15; Pop; Push 15;
         Pop; Pop; Pop; Pop; Pop]
    = Ret ([Pushed QUEUE_OK; Pushed QUEUE_OK; Pushed QUEUE_OK; Pushed QUEUE_OK;
            Pushed QUEUE_FULL; Popped QUEUE_OK (Some 11); Pushed QUEUE_OK;
            Popped QUEUE_OK (Some 12); Popped QUEUE_OK (Some 13);
            Popped QUEUE_OK (Some 14); Popped QUEUE_OK (Some 15);
            Popped QUEUE_EMPTY None], q') /\
    contents q' = [].
Proof.
  apply (queue_fifo [0; 0; 0; 0] 4
           [Push 11; Push 12; Push 13; Push 14; Push 15; Pop; Push 15;
            Pop; Pop; Pop; Pop; Pop]); simpl; lia.
Defined.

Lemma putEvent_full_rejects_witness :
  putEvent (Demo.pushes (initEventQueue [0; 0; 0; 0] 4) [11; 12; 13; 14]) 15
    = Ret (QUEUE_FULL, Demo.pushes (initEventQueue [0; 0; 0; 0] 4) [11; 12; 13; 14]) /\
  (exists q : eventQueue_t,
     run (initEventQueue [0; 0; 0; 0] 4) (map Push [11; 12; 13; 14])
       = Ret (map (fun _ => Pushed QUEUE_OK) [11; 12; 13; 14], q) /\
     wf q /\ contents q = [11; 12; 13; 14] /\
     (full q = true <-> List.length [11; 12; 13; 14] = Z.to_nat 4)).
Proof.
  split.
  - apply (proj1 putEvent_full_rejects). reflexivity.
  - apply (proj1 (proj2 putEvent_full_rejects) [0; 0; 0; 0] 4 [11; 12; 13; 14]);
      simpl; lia.
Defined.

Lemma flags_invariant_witness :
  exists (xs : list obs) (q : eventQueue_t),
    run (initEventQueue [0; 0] 2) [Push 11; Push 12; Pop; Pop] = Ret (xs, q) /\
    flags_ok q /\
    (head q = tail q ->
     (full q = true /\ empty q = false) \/ (full q = false /\ empty q = true)).
Proof.
  apply (proj2 (proj2 (proj2 flags_invariant)) [0; 0] 2 [Push 11; Push 12; Pop; Pop]);
    simpl; lia.
Defined.

End QueueRunsDemo.

(** * Further properties of the code *)

(** ** The queue, one operation at a time *)

Section QueueMore.

Import Queue.

(** What an accepted push makes of a well-formed queue. *)
Lemma putEvent_shape (q : eventQueue_t) (e : event_t) :
  wf q -> full q = false ->
  putEvent q e =
    Ret (QUEUE_OK,
         mkQueue (<[Z.to_nat (head q) := e]> (queue q)) (length q)
                 (ring_next (length q) (head q)) (tail q)
                 (if tail q =? ring_next (length q) (head q) then true else false)
                 false).
Proof.
  intros [Hl Hb Hh Ht _ _] Hf. unfold putEvent, store. rewrite Hf. simpl.
  destruct (Z.leb_spec 0 (head q)); [|lia].
  destruct (Z.ltb_spec (head q) (Z.of_nat (List.length (queue q)))); [|lia].
  simpl. fold (ring_next (length q) (head q)).
  pose proof (ring_next_range (length q) (head q) Hh).
  rewrite u8_small by lia. reflexivity.
Qed.

(** What a pop makes of a well-formed queue that holds an event. *)
Lemma getEvent_shape (q : eventQueue_t) (ev : event_t) :
  wf q -> empty q = false ->
  exists x : event_t,
    queue q !! Z.to_nat (tail q) = Some x /\
    getEvent q ev =
      Ret (QUEUE_OK,
           mkQueue (queue q) (length q) (head q)
                   (ring_next (length q) (tail q)) false
                   (if ring_next (length q) (tail q) =? head q then true else false),
           x).
Proof.
  intros [Hl Hb Hh Ht _ _] He. unfold getEvent, load. rewrite He. simpl.
  destruct (Z.leb_spec 0 (tail q)); [|lia].
  destruct (queue q !! Z.to_nat (tail q)) as [x|] eqn:Hx.
  2:{ apply lookup_ge_None in Hx. lia. }
  exists x. split; [reflexivity|].
  fold (ring_next (length q) (tail q)).
  pose proof (ring_next_range (length q) (tail q) Ht).
  rewrite u8_small by lia. reflexivity.
Qed.

(** X1. On a well-formed queue no operation reads or writes outside the
    buffer: a push and a pop return, and leave a well-formed queue of the
    same capacity. A push does not move [tail]; a pop does not move [head]
    and does not write the buffer. *)
Theorem queue_ops_keep_wf (q : eventQueue_t) :
  wf q ->
  (forall e : event_t,
     exists (r : eventQueueError_t) (q' : eventQueue_t),
       putEvent q e = Ret (r, q') /\ wf q' /\ length q' = length q /\
       List.length (queue q') = List.length (queue q) /\ tail q' = tail q) /\
  (forall ev : event_t,
     exists (r : eventQueueError_t) (q' : eventQueue_t) (e : event_t),
       getEvent q ev = Ret (r, q', e) /\ wf q' /\ length q' = length q /\
       queue q' = queue q /\ head q' = head q).
Proof.
  intros Hwf. split.
  - intros e. destruct (full q) eqn:Hf.
    + exists QUEUE_FULL, q. rewrite putEvent_full by assumption. auto.
    + destruct (putEvent_ok q e Hwf Hf) as (q' & Hput & Hwf' & Hlen & _).
      exists QUEUE_OK, q'. rewrite (putEvent_shape q e Hwf Hf) in Hput.
      injection Hput as <-. simpl. rewrite length_insert.
      split_and!; try reflexivity; [now apply putEvent_shape | exact Hwf'].
  - intros ev. destruct (empty q) eqn:He.
    + exists QUEUE_EMPTY, q, ev. rewrite getEvent_empty by assumption. auto.
    + destruct (getEvent_ok q ev Hwf He) as (q' & x & Hget & Hwf' & Hlen & _).
      exists QUEUE_OK, q', x.
      destruct (getEvent_shape q ev Hwf He) as (y & _ & Hs).
      rewrite Hs in Hget. injection Hget as <- <-. simpl.
      split_and!; try reflexivity; [exact Hs | exact Hwf'].
Qed.

(** X2. The events a well-formed queue holds, oldest first, say what each
    operation does: an accepted push adds the event at the back; a pop
    that finds an event returns the oldest and leaves the others; [full]
    is set exactly when the queue holds as many events as its capacity,
    and [empty] exactly when it holds none. *)
Theorem queue_ops_contents (q : eventQueue_t) :
  wf q ->
  (forall e : event_t,
     full q = false ->
     exists q' : eventQueue_t,
       putEvent q e = Ret (QUEUE_OK, q') /\ contents q' = contents q ++ [e]) /\
  (forall ev : event_t,
     empty q = false ->
     exists (q' : eventQueue_t) (x : event_t),
       getEvent q ev = Ret (QUEUE_OK, q', x) /\ contents q = x :: contents q') /\
  (full q = true <-> List.length (contents q) = Z.to_nat (length q)) /\
  (empty q = true <-> contents q = []).
Proof.
  intros Hwf. split_and!.
  - intros e Hf. destruct (putEvent_ok q e Hwf Hf) as (q' & Hput & _ & _ & Hc). eauto.
  - intros ev He.
    destruct (getEvent_ok q ev Hwf He) as (q' & x & Hget & _ & _ & Hc). eauto.
  - rewrite length_contents. now apply wf_full_count.
  - rewrite (wf_empty_count q Hwf). split.
    + apply contents_nil_count.
    + intros Hc. rewrite <- length_contents, Hc. reflexivity.
Qed.

(** Cells of the buffer from index [length] on are not part of the ring:
    one operation leaves them as they are. *)
Lemma step_outside_ring (q q' : eventQueue_t) (o : op) (x : obs) (i : nat) :
  wf q -> step q o = Ret (x, q') ->
  (Z.to_nat (length q) <= i)%nat ->
  wf q' /\ length q' = length q /\ queue q' !! i = queue q !! i.
Proof.
  intros Hwf Hstep Hi. destruct o as [e|]; simpl in Hstep.
  - destruct (full q) eqn:Hf.
    + rewrite putEvent_full in Hstep by assumption.
      injection Hstep as _ <-. auto.
    + destruct (putEvent_ok q e Hwf Hf) as (q1 & Hput & Hwf1 & Hlen & _).
      rewrite Hput in Hstep. injection Hstep as _ <-.
      rewrite (putEvent_shape q e Hwf Hf) in Hput. injection Hput as <-.
      split_and!; try assumption. simpl.
      destruct Hwf as [_ _ Hh _ _ _].
      apply list_lookup_insert_ne. lia.
  - destruct (empty q) eqn:He.
    + rewrite getEvent_empty in Hstep by assumption.
      injection Hstep as _ <-. auto.
    + destruct (getEvent_ok q 0 Hwf He) as (q1 & y & Hget & Hwf1 & Hlen & _).
      rewrite Hget in Hstep. injection Hstep as _ <-.
      destruct (getEvent_shape q 0 Hwf He) as (z & _ & Hs).
      rewrite Hs in Hget. injection Hget as <- _.
      split_and!; try assumption. reflexivity.
Qed.

(** X3. When the buffer is longer than the capacity given to
    [initEventQueue], no sequence of pushes and pops writes a cell from
    index [length] on. *)
Theorem buffer_beyond_length_untouched (ops : list op) :
  forall q : eventQueue_t,
    wf q ->
    exists (xs : list obs) (q' : eventQueue_t),
      run q ops = Ret (xs, q') /\
      forall i : nat, (Z.to_nat (length q) <= i)%nat -> queue q' !! i = queue q !! i.
Proof.
  induction ops as [|o ops IH]; intros q Hwf.
  - exists [], q. split; [reflexivity | auto].
  - destruct (run_refines [o] q Hwf) as (q1 & Hrun1 & Hwf1 & Hlen1 & _).
    simpl in Hrun1. destruct (step q o) as [[x q1']| |] eqn:Hstep; try discriminate.
    injection Hrun1 as _ <-.
    destruct (IH q1' Hwf1) as (xs & q' & Hrun & Hframe).
    exists (x :: xs), q'. simpl. rewrite Hstep, Hrun. split; [reflexivity|].
    intros i Hi.
    destruct (step_outside_ring q q1' o x i Hwf Hstep Hi) as (_ & Hlen & Hq).
    rewrite Hframe by lia. exact Hq.
Qed.

(** A push and a pop on a ring of one cell, for the capacities 0 and 1. *)
Lemma putEvent_cell0 (len : Z) (y x : event_t) (b : list event_t) (e : bool) :
  len = 0 \/ len = 1 ->
  putEvent (mkQueue (y :: b) len 0 0 false e) x
    = Ret (QUEUE_OK, mkQueue (x :: b) len 0 0 true false).
Proof.
  intros Hlen. unfold putEvent, store. cbn [full negb queue head].
  destruct (Z.ltb_spec 0 (Z.of_nat (List.length (y :: b)))) as [_|H];
    [|simpl in H; lia].
  destruct Hlen as [-> | ->]; reflexivity.
Qed.

Lemma getEvent_cell0 (len : Z) (y ev : event_t) (b : list event_t) (f : bool) :
  len = 0 \/ len = 1 ->
  getEvent (mkQueue (y :: b) len 0 0 f false) ev
    = Ret (QUEUE_OK, mkQueue (y :: b) len 0 0 false true, y).
Proof. intros [-> | ->]; reflexivity. Qed.

(** The queues of capacity 0 and 1 on one buffer, side by side. *)
Lemma run_zero_length (ops : list op) :
  forall (b : list event_t) (f e : bool),
    b <> [] ->
    exists (xs : list obs) (b' : list event_t) (f' e' : bool),
      run (mkQueue b 0 0 0 f e) ops = Ret (xs, mkQueue b' 0 0 0 f' e') /\
      run (mkQueue b 1 0 0 f e) ops = Ret (xs, mkQueue b' 1 0 0 f' e').
Proof.
  induction ops as [|o ops IH]; intros b f e Hb.
  - exists [], b, f, e. split; reflexivity.
  - destruct b as [|y b]; [congruence|].
    destruct o as [x|].
    + destruct f.
      * destruct (IH (y :: b) true e Hb) as (xs & b' & f' & e' & H0 & H1).
        exists (Pushed QUEUE_FULL :: xs), b', f', e'.
        cbn [run step]. rewrite !putEvent_full by reflexivity.
        rewrite H0, H1. split; reflexivity.
      * destruct (IH (x :: b) true false ltac:(discriminate))
          as (xs & b' & f' & e' & H0 & H1).
        exists (Pushed QUEUE_OK :: xs), b', f', e'.
        cbn [run step]. rewrite !putEvent_cell0 by auto.
        rewrite H0, H1. split; reflexivity.
    + destruct e.
      * destruct (IH (y :: b) f true Hb) as (xs & b' & f' & e' & H0 & H1).
        exists (Popped QUEUE_EMPTY None :: xs), b', f', e'.
        cbn [run step]. rewrite !getEvent_empty by reflexivity.
        rewrite H0, H1. split; reflexivity.
      * destruct (IH (y :: b) false true Hb) as (xs & b' & f' & e' & H0 & H1).
        exists (Popped QUEUE_OK (Some y) :: xs), b', f', e'.
        cbn [run step]. rewrite !getEvent_cell0 by auto.
        rewrite H0, H1. split; reflexivity.
Qed.

(** X4. A queue initialised with [length] 0 is not a queue that refuses
    every event: its first push writes cell 0 of the buffer. With a buffer
    of no cell that is a write outside it; with any other buffer, every
    sequence of operations gives what it gives on a queue of capacity 1. *)
Theorem zero_length_queue :
  (forall e : event_t, putEvent (initEventQueue [] 0) e = OutOfBounds) /\
  (forall (buffer : list event_t) (ops : list op),
     buffer <> [] ->
     exists (xs : list obs) (q0 q1 : eventQueue_t),
       run (initEventQueue buffer 0) ops = Ret (xs, q0) /\
       run (initEventQueue buffer 1) ops = Ret (xs, q1) /\
       queue q0 = queue q1).
Proof.
  split; [reflexivity|].
  intros buffer ops Hb.
  destruct (run_zero_length ops buffer false true Hb) as (xs & b' & f' & e' & H0 & H1).
  exists xs, (mkQueue b' 0 0 0 f' e'), (mkQueue b' 1 0 0 f' e').
  split_and!; [exact H0 | exact H1 | reflexivity].
Qed.

End QueueMore.

(** ** The transitions, whatever the hierarchy *)

Section EngineMore.

Import Hsm.

Context {State : Type} `{EqDecision State} {App : Type}.
Variable parent : State -> State.
Variable handler : State -> event_t -> world State App -> world State App.

Lemma handler_calls_log (cs : list (State * event_t)) (e0 : event_t)
    (r : eventQueueError_t) :
  handler_calls (map (fun c => Handler (fst c) (snd c)) cs
                   ++ [DisableIrq; PutEvent e0 r; EnableIrq])
  = cs.
Proof.
  unfold handler_calls. rewrite omap_app. simpl. rewrite app_nil_r.
  induction cs as [|[s e] cs IH]; simpl; [reflexivity|]. f_equal. exact IH.
Qed.

Lemma in_calls_log (cs : list (State * event_t)) (x : State) (e e0 : event_t)
    (r : eventQueueError_t) :
  Handler x e ∈ map (fun c => Handler (fst c) (snd c)) cs
                  ++ [DisableIrq; PutEvent e0 r; EnableIrq] ->
  (x, e) ∈ cs.
Proof.
  rewrite elem_of_app. intros [Hin|Hin].
  - apply list_elem_of_fmap in Hin as ([y e'] & Heq & Hin). simpl in Heq.
    injection Heq as -> ->. exact Hin.
  - apply elem_of_cons in Hin as [Hin|Hin]; [discriminate|].
    apply elem_of_cons in Hin as [Hin|Hin]; [discriminate|].
    apply elem_of_cons in Hin as [Hin|Hin]; [discriminate|]. inversion Hin.
Qed.

(** X5. The handler calls of a general transition, in the order they are
    made: the exit action of the current state if it is on the exit path,
    then the entry actions from the outermost to the destination, and no
    other call. No handler of a state that is on both chains is called,
    and the destination is the current state at the end. The two states
    need not be of one hierarchy. *)
Theorem setState_call_sequence
    (w : world State App) (s t : State) (up down : list State) :
  currentState (hsm w) = s -> s <> t ->
  chain parent 16 s = Some up ->
  chain parent 16 t = Some down ->
  List.length (up_path w) = 16%nat ->
  List.length (down_path w) = 16%nat ->
  Queue.wf (eventQueue (hsm w)) ->
  quiet_actions handler ->
  exists (w' : world State App) (log : list (call State)),
    setState parent handler t w = Ret (tt, w', log) /\
    handler_calls log =
      map (fun x => (x, HSM_ON_EXIT)) (take 1 (exit_path up down)) ++
      map (fun x => (x, HSM_ON_ENTRY)) (entry_path up down) /\
    currentState (hsm w') = t /\
    (forall (x : State) (e : event_t), x ∈ up -> x ∈ down -> Handler x e ∉ log).
Proof.
  intros Hcur Hne Hup Hdown Lup Ldown Hwf Hq.
  destruct (setState_general_runs parent handler w s t up down)
    as (r & q' & _ & Hrun); try assumption.
  eexists _, _. split; [exact Hrun|].
  split; [apply handler_calls_log|]. split; [reflexivity|].
  intros x e Hxu Hxd Hin. apply in_calls_log in Hin.
  destruct (common_suffix_split up down) as (u & d & c & Eu & Ed & Hdiv).
  destruct (paths_cut parent _ _ _ _ _ _ _ _ _ Hup Hdown Eu Ed Hdiv)
    as (Hex & Hen & Hsu & Hsd).
  unfold transition_calls in Hin. rewrite Hex, Hen in Hin.
  apply elem_of_app in Hin as [Hin|Hin];
    apply list_elem_of_fmap in Hin as (y & Heq & Hin); injection Heq as <- _.
  - apply (Hsu x); [|exact Hxd]. destruct u as [|z u]; [inversion Hin|].
    simpl in Hin. apply list_elem_of_singleton in Hin as ->. now left.
  - apply (Hsd x); [|exact Hxu].
    apply list_elem_of_In. apply List.in_rev. now apply list_elem_of_In.
Qed.

(** X6. A transition between two states whose chains reach, within 16
    levels, two different roots, with exit and entry actions that leave
    [down_path] and the shape of the queue alone (they do not call
    [setState] themselves): the current state is exited, every state of
    the chain of the destination is entered, from its root down to the
    destination, and the transition is made. *)
Theorem setState_between_hierarchies
    (w : world State App) (s t : State) (up down : list State) :
  currentState (hsm w) = s ->
  chain parent 16 s = Some up ->
  chain parent 16 t = Some down ->
  last up <> last down ->
  List.length (up_path w) = 16%nat ->
  List.length (down_path w) = 16%nat ->
  Queue.wf (eventQueue (hsm w)) ->
  quiet_actions handler ->
  exists (w' : world State App) (log : list (call State)),
    setState parent handler t w = Ret (tt, w', log) /\
    handler_calls log = (s, HSM_ON_EXIT) :: map (fun x => (x, HSM_ON_ENTRY)) (rev down) /\
    currentState (hsm w') = t.
Proof.
  intros Hcur Hup Hdown Hroot Lup Ldown Hwf Hq.
  assert (Hne : s <> t).
  { intros ->. apply Hroot. f_equal.
    eapply (chain_unique parent); eassumption. }
  destruct (setState_general_runs parent handler w s t up down)
    as (r & q' & _ & Hrun); try assumption.
  eexists _, _. split; [exact Hrun|]. split; [|reflexivity].
  rewrite handler_calls_log.
  destruct (common_suffix_split up down) as (u & d & c & Eu & Ed & Hdiv).
  destruct (paths_cut parent _ _ _ _ _ _ _ _ _ Hup Hdown Eu Ed Hdiv)
    as (Hex & Hen & _ & _).
  assert (c = []) as ->.
  { destruct c as [|a c'] using rev_ind; [reflexivity|]. exfalso.
    apply Hroot. rewrite Eu, Ed, !app_assoc, !last_snoc. reflexivity. }
  rewrite app_nil_r in Eu, Ed. subst u d.
  unfold transition_calls. rewrite Hex, Hen.
  destruct (chain_head parent _ _ _ Hup) as [up' ->]. reflexivity.
Qed.

(** X7. Of a general transition, whatever the handlers do: when
    [setState] returns, the exit actions it has made are those of the
    first node of the exit path, so they are those of the whole exit path
    exactly when that path has at most one node, that is when the current
    state is the least common ancestor or a child of it.  And [setState]
    does return when the actions keep [down_path] at its size and the
    queue well formed. *)
Theorem setState_exits_all_iff
    (w : world State App) (s t : State) (up down : list State) :
  currentState (hsm w) = s -> s <> t ->
  chain parent 16 s = Some up ->
  chain parent 16 t = Some down ->
  List.length (up_path w) = 16%nat ->
  List.length (down_path w) = 16%nat ->
  (forall (w' : world State App) (log : list (call State)),
     setState parent handler t w = Ret (tt, w', log) ->
     fired HSM_ON_EXIT log = take 1 (exit_path up down) /\
     (fired HSM_ON_EXIT log = exit_path up down <->
      (List.length (exit_path up down) <= 1)%nat)) /\
  (sound_actions handler -> Queue.wf (eventQueue (hsm w)) ->
   exists (w' : world State App) (log : list (call State)),
     setState parent handler t w = Ret (tt, w', log)).
Proof.
  intros Hcur Hne Hup Hdown Lup Ldown. split.
  - intros w' log Hrun.
    destruct (setState_general_inv parent handler w w' s t up down log)
      as (cs & r & q' & Hall & -> & _ & _); try assumption.
    assert (Hfired : fired HSM_ON_EXIT
                       (map (fun c => Handler (fst c) (snd c))
                          (map (fun x => (x, HSM_ON_EXIT)) (take 1 (exit_path up down))
                             ++ cs)
                        ++ [DisableIrq; PutEvent HSM_INITIAL r; EnableIrq])
                     = take 1 (exit_path up down)).
    { rewrite map_app, map_map, !fired_app, fired_send.
      rewrite (fired_none HSM_ON_EXIT HSM_ON_ENTRY cs)
        by (assumption || (cbv; discriminate)).
      rewrite !app_nil_r. apply (fired_same HSM_ON_EXIT). }
    rewrite Hfired. split; [reflexivity|].
    destruct (exit_path up down) as [|x [|y l]]; simpl; split; try reflexivity;
      try lia; discriminate.
  - intros Hs Hwf. now apply (setState_general_returns parent handler w s t up down).
Qed.

Lemma bind_fault {A B : Type} (m : M State App A) (k : A -> M State App B)
    (w : world State App) :
  m w = OutOfBounds -> bind m k w = OutOfBounds.
Proof. intros Hm. unfold bind. now rewrite Hm. Qed.

(** Going to the root from a state whose chain is longer than what is left
    of the array ends at a write past the last cell. *)
Lemma climb_overrun (a : path_array) (n : nat) :
  forall (s : State) (fuel c : nat) (w : world State App),
    chain parent n s = None ->
    path a w !! c = Some s ->
    (c + n = 16)%nat ->
    List.length (path a w) = 16%nat ->
    (n < fuel)%nat ->
    climb parent a fuel (Z.of_nat c) w = OutOfBounds.
Proof.
  induction n as [|n IH]; intros s fuel c w Hc Hs Hcn Hlen Hfuel.
  - apply lookup_lt_Some in Hs. lia.
  - simpl in Hc. destruct (decide (s = parent s)) as [|Hr]; [discriminate|].
    destruct (chain parent n (parent s)) as [l|] eqn:E; [discriminate|].
    destruct fuel as [|fuel]; [lia|]. simpl.
    rewrite (bind_step _ _ _ _ _ _ (read_ok a c w s ltac:(lia) Hs)), logged_nil.
    rewrite decide_True by tauto.
    rewrite (u8_small (Z.of_nat c + 1)) by lia.
    replace (Z.of_nat c + 1 - 1) with (Z.of_nat c) by lia.
    rewrite (bind_step _ _ _ _ _ _ (read_ok a c w s ltac:(lia) Hs)), logged_nil.
    replace (Z.of_nat c + 1) with (Z.of_nat (S c)) by lia.
    destruct n as [|n'].
    + apply bind_fault. unfold write, PATH_DEPTH.
      destruct (Z.ltb_spec (Z.of_nat (S c)) 16); [lia|].
      now rewrite andb_false_r.
    + rewrite (bind_step _ _ _ _ _ _ (write_ok a (S c) (parent s) w
                 ltac:(lia) ltac:(lia))), logged_nil.
      apply (IH (parent s)); try assumption; try lia.
      * rewrite path_set_path. apply list_lookup_insert_eq. lia.
      * rewrite path_set_path, length_insert. exact Hlen.
Qed.

(** X8. A general transition whose current state or whose destination has
    no root within 16 nodes writes past the end of a scratch array. *)
Theorem setState_deep_chain (w : world State App) (s t : State) :
  currentState (hsm w) = s -> s <> t ->
  List.length (up_path w) = 16%nat ->
  List.length (down_path w) = 16%nat ->
  chain parent 16 s = None \/ chain parent 16 t = None ->
  setState parent handler t w = OutOfBounds.
Proof.
  intros Hcur Hne Lup Ldown Hdeep.
  unfold setState.
  set (F := LOOP_FUEL) in *.
  assert (HF : (17 <= F)%nat) by (unfold F, LOOP_FUEL; lia).
  clearbody F.
  rewrite (bind_step _ _ w w s []) by (unfold get_currentState; now rewrite Hcur).
  rewrite logged_nil, decide_False by assumption.
  rewrite (bind_step _ _ w w s []) by (unfold get_currentState; now rewrite Hcur).
  rewrite logged_nil.
  pose proof (write_ok UpPath 0 s w) as Hw0. change (Z.of_nat 0) with 0 in Hw0.
  rewrite (bind_step _ _ _ _ _ _ (Hw0 ltac:(lia) ltac:(simpl; lia))), logged_nil.
  clear Hw0.
  assert (Hs0 : path UpPath (set_path UpPath (<[0%nat:=s]> (path UpPath w)) w) !! 0%nat
                = Some s).
  { simpl. destruct (up_path w); [discriminate Lup | reflexivity]. }
  destruct (chain parent 16 s) as [up|] eqn:Hup.
  - destruct Hdeep as [|Hdown]; [discriminate|].
    pose proof (chain_length parent _ _ _ Hup) as Hlu.
    pose proof (climb_chain parent handler UpPath 16 s up F 0 _ Hup Hs0) as Hc1.
    change (Z.of_nat 0) with 0 in Hc1.
    rewrite (bind_step _ _ _ _ _ _ (Hc1 ltac:(lia)
               ltac:(simpl; rewrite length_insert; lia) ltac:(lia))), logged_nil.
    clear Hc1.
    match goal with |- bind _ _ ?w1 = _ =>
      pose proof (write_ok DownPath 0 t w1) as Hw0 end.
    change (Z.of_nat 0) with 0 in Hw0.
    rewrite (bind_step _ _ _ _ _ _ (Hw0 ltac:(lia) ltac:(simpl; lia))), logged_nil.
    clear Hw0.
    apply bind_fault.
    apply (climb_overrun DownPath 16 t F 0 _ Hdown); try lia.
    + simpl. destruct (down_path w); [discriminate Ldown | reflexivity].
    + simpl. rewrite length_insert. exact Ldown.
  - apply bind_fault.
    apply (climb_overrun UpPath 16 s F 0 _ Hup Hs0); try lia.
    simpl. rewrite length_insert. exact Lup.
Qed.

End EngineMore.

(** ** The loops of the engine: when they stop *)

Section EngineLoops.

Import Hsm.

Context {State : Type} `{EqDecision State} {App : Type}.
Variable parent : State -> State.
Variable handler : State -> event_t -> world State App -> world State App.

Lemma bind_no_fuel {A B : Type} (m : M State App A) (k : A -> M State App B)
    (w : world State App) :
  m w <> OutOfFuel ->
  (forall a w1 l1, m w = Ret (a, w1, l1) -> k a w1 <> OutOfFuel) ->
  bind m k w <> OutOfFuel.
Proof.
  intros Hm Hk. unfold bind. destruct (m w) as [[[a w1] l1]| |]; try congruence.
  specialize (Hk a w1 l1 eq_refl).
  destruct (k a w1) as [[[b w2] l2]| |]; simpl; congruence.
Qed.

Lemma read_no_fuel (a : path_array) (i : Z) (w : world State App) :
  read a i w <> OutOfFuel.
Proof.
  unfold read. destruct ((0 <=? i) && (i <? PATH_DEPTH)); [|discriminate].
  destruct (path a w !! Z.to_nat i); discriminate.
Qed.

Lemma read_in_range (a : path_array) (i : Z) (w w' : world State App)
    (s : State) (l : list (call State)) :
  read a i w = Ret (s, w', l) -> 0 <= i < 16 /\ w' = w.
Proof.
  unfold read, PATH_DEPTH.
  destruct (Z.leb_spec 0 i); simpl; [|discriminate].
  destruct (Z.ltb_spec i 16); [|discriminate].
  destruct (path a w !! Z.to_nat i); [|discriminate].
  intros [= _ <- _]. split; [lia | reflexivity].
Qed.

Lemma write_no_fuel (a : path_array) (i : Z) (s : State) (w : world State App) :
  write a i s w <> OutOfFuel.
Proof.
  unfold write.
  destruct ((0 <=? i) && (i <? PATH_DEPTH) && (i <? Z.of_nat (List.length (path a w))));
    discriminate.
Qed.

Lemma sendEvent_no_fuel (e : event_t) (w : world State App) :
  sendEvent e w <> OutOfFuel.
Proof.
  unfold sendEvent, bind, disable_irq, put_event, enable_irq, Queue.putEvent, Queue.store.
  destruct (negb (Queue.full (eventQueue (hsm w)))); [|discriminate].
  destruct ((0 <=? Queue.head (eventQueue (hsm w))) &&
            (Queue.head (eventQueue (hsm w))
               <? Z.of_nat (List.length (Queue.queue (eventQueue (hsm w))))));
    discriminate.
Qed.

(** The climb stops before the counter passes the array, and returns a
    counter inside it. *)
Lemma climb_stops (a : path_array) (fuel : nat) :
  forall (c : Z) (w : world State App),
    0 <= c -> 16 - c < Z.of_nat fuel -> (1 <= fuel)%nat ->
    match climb parent a fuel c w with
    | Ret (c', _, _) => 0 <= c' < 16
    | OutOfBounds => True
    | OutOfFuel => False
    end.
Proof.
  induction fuel as [|fuel IH]; intros c w Hc Hfuel H1; [lia|].
  cbn [climb]. unfold bind.
  pose proof (read_no_fuel a c w) as Hr.
  destruct (read a c w) as [[[s w1] l1]| |] eqn:Hread; [|exact I|congruence].
  apply read_in_range in Hread as [Hc16 ->].
  destruct (decide (s <> parent s)) as [Hne|Heq]; [|cbn; lia].
  rewrite (u8_small (c + 1)) by lia.
  pose proof (read_no_fuel a (c + 1 - 1) w) as Hr2.
  destruct (read a (c + 1 - 1) w) as [[[p w2] l2]| |]; [|exact I|congruence].
  pose proof (write_no_fuel a (c + 1) (parent p) w2) as Hw.
  destruct (write a (c + 1) (parent p) w2) as [[[[] w3] l3]| |];
    [|exact I|congruence].
  specialize (IH (c + 1) w3 ltac:(lia) ltac:(lia) ltac:(lia)).
  destruct (climb parent a fuel (c + 1) w3) as [[[c' w'] l']| |]; cbn; auto.
Qed.

Lemma climb_no_fuel (a : path_array) (fuel : nat) (c : Z) (w : world State App) :
  0 <= c -> 16 - c < Z.of_nat fuel -> (1 <= fuel)%nat ->
  climb parent a fuel c w <> OutOfFuel /\
  forall c' w' l, climb parent a fuel c w = Ret (c', w', l) -> 0 <= c' < 16.
Proof.
  intros Hc Hfuel H1. pose proof (climb_stops a fuel c w Hc Hfuel H1) as Hs.
  destruct (climb parent a fuel c w) as [[[c' w'] l']| |]; [|split; congruence|tauto].
  split; [discriminate|]. intros c'' w'' l'' [= <- _ _]. exact Hs.
Qed.

(** The pruning stops: its first counter goes down to 0. *)
Lemma prune_no_fuel (fuel : nat) :
  forall (c d : Z) (ne nx : bool) (w : world State App),
    0 <= c < 256 -> c < Z.of_nat fuel ->
    prune fuel c d ne nx w <> OutOfFuel.
Proof.
  induction fuel as [|fuel IH]; intros c d ne nx w Hc Hfuel; [lia|].
  cbn [prune]. apply bind_no_fuel; [apply read_no_fuel|].
  intros u w1 l1 Hr1. apply bind_no_fuel; [apply read_no_fuel|].
  intros v w2 l2 Hr2.
  destruct (decide (u = v)); [|discriminate].
  destruct (Z.eqb_spec c 0); [discriminate|].
  destruct (Z.eqb_spec d 0); [discriminate|].
  apply IH; rewrite u8_small by lia; lia.
Qed.

(** The exit loop stops at its second test. *)
Lemma exit_loop_no_fuel (fuel : nat) (c : Z) (w : world State App) :
  (2 <= fuel)%nat -> exit_loop handler fuel 0 c w <> OutOfFuel.
Proof.
  intros Hfuel. destruct fuel as [|[|fuel]]; try lia.
  cbn [exit_loop]. destruct (0 <=? c); [|discriminate].
  apply bind_no_fuel; [apply read_no_fuel|]. intros s w1 l1 _.
  apply bind_no_fuel; [discriminate|]. intros [] w2 l2 _.
  change (u8 (0 - 1)) with 255. destruct (255 <=? c); [|discriminate].
  unfold bind. assert (Hoob : read UpPath 255 w2 = OutOfBounds) by reflexivity.
  now rewrite Hoob.
Qed.

(** The entry loop stops: its counter goes down to 0 inside the array. *)
Lemma entry_loop_no_fuel_in (fuel : nat) :
  forall (i : Z) (w : world State App),
    0 <= i < 16 -> i < Z.of_nat fuel ->
    entry_loop handler fuel i w <> OutOfFuel.
Proof.
  induction fuel as [|fuel IH]; intros i w Hi Hfuel; [lia|].
  cbn [entry_loop]. cbv zeta.
  destruct (Z.eq_dec i 0) as [->|Hi0].
  - change (u8 (0 - 1)) with 255. unfold bind.
    assert (Hoob : read DownPath 255 w = OutOfBounds) by reflexivity.
    now rewrite Hoob.
  - rewrite (u8_small (i - 1)) by lia.
    apply bind_no_fuel; [apply read_no_fuel|]. intros s w1 l1 _.
    apply bind_no_fuel; [discriminate|]. intros [] w2 l2 _.
    destruct (negb (i - 1 =? 0)); [|discriminate].
    apply IH; lia.
Qed.

Lemma entry_loop_no_fuel (fuel : nat) (i : Z) (w : world State App) :
  (17 <= fuel)%nat -> entry_loop handler fuel i w <> OutOfFuel.
Proof.
  intros Hfuel. destruct fuel as [|fuel]; [lia|].
  cbn [entry_loop]. cbv zeta.
  apply bind_no_fuel; [apply read_no_fuel|]. intros s w1 l1 Hr.
  apply read_in_range in Hr as [Hr _].
  apply bind_no_fuel; [discriminate|]. intros [] w2 l2 _.
  destruct (negb (u8 (i - 1) =? 0)); [|discriminate].
  apply entry_loop_no_fuel_in; lia.
Qed.

(** X9. Whatever the hierarchy, with a root or without, whatever the
    memory and whatever the handlers do, no loop of [setState] runs for
    more than 256 turns: each stops with a result or at an access outside
    a scratch array. *)
Theorem setState_loops_stop (w : world State App) (t : State) :
  setState parent handler t w <> OutOfFuel.
Proof.
  unfold setState.
  set (F := LOOP_FUEL) in *.
  assert (HF : (17 <= F)%nat) by (unfold F, LOOP_FUEL; lia).
  assert (HF' : (256 <= F)%nat) by (unfold F, LOOP_FUEL; lia).
  clearbody F.
  apply bind_no_fuel; [discriminate|]. intros cur w0 l0 _.
  destruct (decide (cur = t)).
  - apply bind_no_fuel; [discriminate|]. intros [] w1 l1 _.
    apply bind_no_fuel; [discriminate|]. intros [] w2 l2 _.
    apply sendEvent_no_fuel.
  - apply bind_no_fuel; [discriminate|]. intros cur' w1 l1 _.
    apply bind_no_fuel; [apply write_no_fuel|]. intros [] w2 l2 _.
    destruct (climb_no_fuel UpPath F 0 w2 ltac:(lia) ltac:(lia) ltac:(lia)) as [Hc1 Hr1].
    apply bind_no_fuel; [exact Hc1|]. intros c w3 l3 Hc. apply Hr1 in Hc.
    apply bind_no_fuel; [apply write_no_fuel|]. intros [] w4 l4 _.
    destruct (climb_no_fuel DownPath F 0 w4 ltac:(lia) ltac:(lia) ltac:(lia)) as [Hc2 _].
    apply bind_no_fuel; [exact Hc2|]. intros d w5 l5 _.
    apply bind_no_fuel; [apply prune_no_fuel; lia|].
    intros [[[c' d'] ne] nx] w6 l6 _.
    apply bind_no_fuel.
    { destruct (eqb nx false); [apply exit_loop_no_fuel; lia | discriminate]. }
    intros [] w7 l7 _.
    apply bind_no_fuel.
    { destruct (eqb ne false); [apply entry_loop_no_fuel; lia | discriminate]. }
    intros [] w8 l8 _.
    apply bind_no_fuel; [discriminate|]. intros [] w9 l9 _.
    apply sendEvent_no_fuel.
Qed.

(** The drain of a queue by handlers that leave the machine alone. *)
Lemma drains_contents (n : nat) :
  (forall s e w, hsm (handler s e w) = hsm w) ->
  forall w : world State App,
    Queue.wf (eventQueue (hsm w)) ->
    Queue.count (eventQueue (hsm w)) = n ->
    exists w' : world State App,
      drains handler w
        (map (fun e => (currentState (hsm w), e)) (Queue.contents (eventQueue (hsm w))))
        w' /\
      currentState (hsm w') = currentState (hsm w) /\
      Queue.wf (eventQueue (hsm w')) /\
      Queue.contents (eventQueue (hsm w')) = [].
Proof.
  intros Hkeep. induction n as [|n IH]; intros w Hwf Hn.
  - assert (He : Queue.empty (eventQueue (hsm w)) = true) by now apply wf_empty_count.
    exists w. rewrite (contents_nil_count _ Hn). split_and!; try done.
    eapply drains_stop with (ev := 0). now apply getEvent_empty.
  - assert (He : Queue.empty (eventQueue (hsm w)) = false).
    { destruct (Queue.empty (eventQueue (hsm w))) eqn:E; [|reflexivity].
      apply (wf_empty_count _ Hwf) in E. lia. }
    destruct (getEvent_ok _ 0 Hwf He) as (q' & x & Hget & Hwf' & _ & Hc).
    assert (Hn' : Queue.count q' = n).
    { pose proof (length_contents (eventQueue (hsm w))) as Hl.
      rewrite Hc in Hl. simpl in Hl. rewrite length_contents in Hl. lia. }
    set (w1 := handler (currentState (hsm w)) x (set_eventQueue q' w)).
    assert (Hh1 : hsm w1 = mkHsm (currentState (hsm w)) q').
    { unfold w1. rewrite Hkeep. reflexivity. }
    destruct (IH w1) as (w' & Hd & Hcs & Hwfe & Hce).
    { rewrite Hh1. exact Hwf'. }
    { rewrite Hh1. exact Hn'. }
    rewrite Hh1 in Hd, Hcs. simpl in Hd, Hcs.
    exists w'. rewrite Hc. simpl. split_and!; try assumption.
    eapply drains_step; [exact Hget | exact Hd].
Qed.

(** X10. With handlers that leave the machine alone, [processHSM] gives
    the events that the queue holds to the handler of the current state,
    oldest first, and returns with the queue empty and the same current
    state. *)
Theorem processHSM_in_order (w : world State App) (fuel : nat) (ev : event_t) :
  (forall s e w, hsm (handler s e w) = hsm w) ->
  Queue.wf (eventQueue (hsm w)) ->
  (Queue.count (eventQueue (hsm w)) < fuel)%nat ->
  exists w' : world State App,
    processHSM handler fuel ev w =
      Ret (tt, w',
           map (fun e => Handler (currentState (hsm w)) e)
               (Queue.contents (eventQueue (hsm w)))) /\
    currentState (hsm w') = currentState (hsm w) /\
    Queue.contents (eventQueue (hsm w')) = [].
Proof.
  intros Hkeep Hwf Hfuel.
  destruct (drains_contents _ Hkeep w Hwf eq_refl) as (w' & Hd & Hcs & _ & Hce).
  exists w'. split_and!; try assumption.
  rewrite (processHSM_complete handler _ _ _ Hd fuel ev).
  - now rewrite map_map.
  - now rewrite length_map, length_contents.
Qed.

(** X11. With handlers that leave something in the queue every time,
    [processHSM] does not return: it is still dispatching after any number
    of turns. *)
Theorem processHSM_kept_busy (w : world State App) (fuel : nat) (ev : event_t) :
  (forall s e w,
     Queue.wf (eventQueue (hsm w)) ->
     Queue.wf (eventQueue (hsm (handler s e w))) /\
     Queue.empty (eventQueue (hsm (handler s e w))) = false) ->
  Queue.wf (eventQueue (hsm w)) ->
  Queue.empty (eventQueue (hsm w)) = false ->
  processHSM handler fuel ev w = OutOfFuel.
Proof.
  intros Hbusy. revert w ev. induction fuel as [|fuel IH]; intros w ev Hwf He.
  - reflexivity.
  - destruct (getEvent_ok _ ev Hwf He) as (q' & x & Hget & Hwf' & _ & _).
    cbn [processHSM]. unfold bind at 1. unfold get_event. rewrite Hget.
    cbn [logged]. rewrite decide_True by discriminate.
    unfold bind, get_currentState, call_handler. cbn [logged].
    destruct (Hbusy (currentState (hsm (set_eventQueue q' w))) x (set_eventQueue q' w))
      as [Hwf1 He1]; [exact Hwf'|].
    rewrite (IH _ x Hwf1 He1). reflexivity.
Qed.

(** X12. An event sent to a machine whose queue is well formed and not
    full is dispatched by the next [processHSM], after the events that
    were waiting, when the handlers leave the machine alone. *)
Theorem sendEvent_then_processHSM
    (w : world State App) (e : event_t) (fuel : nat) (ev : event_t) :
  (forall s e w, hsm (handler s e w) = hsm w) ->
  Queue.wf (eventQueue (hsm w)) ->
  Queue.full (eventQueue (hsm w)) = false ->
  (S (Queue.count (eventQueue (hsm w))) < fuel)%nat ->
  exists w1 w' : world State App,
    sendEvent e w = Ret (tt, w1, [DisableIrq; PutEvent e QUEUE_OK; EnableIrq]) /\
    processHSM handler fuel ev w1 =
      Ret (tt, w',
           map (fun x => Handler (currentState (hsm w)) x)
               (Queue.contents (eventQueue (hsm w)) ++ [e])) /\
    Queue.contents (eventQueue (hsm w')) = [].
Proof.
  intros Hkeep Hwf Hf Hfuel.
  destruct (sendEvent_ok e w Hwf Hf) as (q' & _ & Hwf' & Hc & Hsend).
  destruct (drains_contents _ Hkeep (set_eventQueue q' w) Hwf' eq_refl)
    as (w' & Hd & _ & _ & Hce).
  exists (set_eventQueue q' w), w'. split_and!; try assumption.
  simpl in Hd. rewrite Hc in Hd.
  rewrite (processHSM_complete handler _ _ _ Hd fuel ev).
  - now rewrite map_map.
  - rewrite length_map, length_app, length_contents. simpl. lia.
Qed.

End EngineLoops.

(** ** The further properties on the hierarchies above *)

Section MoreRuns.

Import Hsm.

Lemma pushes_wf (evs : list event_t) :
  forall q : Queue.eventQueue_t, Queue.wf q -> Queue.wf (Demo.pushes q evs).
Proof.
  induction evs as [|e evs IH]; intros q Hwf; [exact Hwf|].
  cbn [Demo.pushes fold_left]. apply IH.
  destruct (Queue.full q) eqn:Hf.
  - now rewrite putEvent_full.
  - destruct (putEvent_ok q e Hwf Hf) as (q' & -> & Hwf' & _). exact Hwf'.
Qed.

Lemma demo_queue_wf (s : Demo.state) (evs : list event_t) :
  Queue.wf (eventQueue (hsm (Demo.machine s evs))).
Proof. apply pushes_wf, wf_initEventQueue; simpl; lia. Qed.

Lemma echo_keeps_busy (s : Demo.state) (e : event_t) (w : world Demo.state unit) :
  Queue.wf (eventQueue (hsm w)) ->
  Queue.wf (eventQueue (hsm (Busy.echo s e w))) /\
  Queue.empty (eventQueue (hsm (Busy.echo s e w))) = false.
Proof.
  intros Hwf. unfold Busy.echo.
  destruct (Queue.full (eventQueue (hsm w))) eqn:Hf.
  - rewrite sendEvent_full by assumption.
    split; [exact Hwf | now apply wf_full_not_empty].
  - destruct (sendEvent_ok e w Hwf Hf) as (q' & _ & Hwf' & Hc & ->).
    split; [exact Hwf'|]. simpl.
    destruct (Queue.empty q') eqn:He; [|reflexivity].
    apply (wf_empty_count q' Hwf') in He.
    rewrite <- length_contents, Hc, length_app in He. simpl in He. lia.
Qed.

Lemma setState_call_sequence_witness :
  exists (w' : world Demo.state unit) (log : list (call Demo.state)),
    setState Demo.parent Demo.quiet Demo.B (Demo.machine Demo.A11 []) = Ret (tt, w', log) /\
    handler_calls log =
      map (fun x => (x, HSM_ON_EXIT))
          (take 1 (exit_path [Demo.A11; Demo.A1; Demo.A; Demo.Root] [Demo.B; Demo.Root])) ++
      map (fun x => (x, HSM_ON_ENTRY))
          (entry_path [Demo.A11; Demo.A1; Demo.A; Demo.Root] [Demo.B; Demo.Root]) /\
    currentState (hsm w') = Demo.B /\
    (forall (x : Demo.state) (e : event_t),
       x ∈ [Demo.A11; Demo.A1; Demo.A; Demo.Root] -> x ∈ [Demo.B; Demo.Root] ->
       Handler x e ∉ log).
Proof.
  apply (setState_call_sequence Demo.parent Demo.quiet (Demo.machine Demo.A11 [])
           Demo.A11 Demo.B); try reflexivity.
  - discriminate.
  - apply machine_queue_wf.
  - apply quiet_is_quiet.
Defined.

Lemma forest_quiet : quiet_actions Forest.quiet.
Proof. intros s e w _. split; [reflexivity | exact (fun H => H)]. Qed.

Lemma setState_between_hierarchies_witness :
  exists (w' : world Forest.state unit) (log : list (call Forest.state)),
    setState Forest.parent Forest.quiet Forest.K2 (Forest.machine Forest.K1)
      = Ret (tt, w', log) /\
    handler_calls log =
      (Forest.K1, HSM_ON_EXIT)
        :: map (fun x => (x, HSM_ON_ENTRY)) (rev [Forest.K2; Forest.R2]) /\
    currentState (hsm w') = Forest.K2.
Proof.
  apply (setState_between_hierarchies Forest.parent Forest.quiet
           (Forest.machine Forest.K1) Forest.K1 Forest.K2
           [Forest.K1; Forest.R1] [Forest.K2; Forest.R2]); try reflexivity.
  - discriminate.
  - apply wf_initEventQueue; simpl; lia.
  - apply forest_quiet.
Defined.

Lemma setState_exits_all_iff_witness :
  (forall (w' : world Demo.state unit) (log : list (call Demo.state)),
     setState Demo.parent Demo.quiet Demo.B (Demo.machine Demo.A11 []) = Ret (tt, w', log) ->
     fired HSM_ON_EXIT log
       = take 1 (exit_path [Demo.A11; Demo.A1; Demo.A; Demo.Root] [Demo.B; Demo.Root]) /\
     (fired HSM_ON_EXIT log
        = exit_path [Demo.A11; Demo.A1; Demo.A; Demo.Root] [Demo.B; Demo.Root] <->
      (List.length (exit_path [Demo.A11; Demo.A1; Demo.A; Demo.Root] [Demo.B; Demo.Root])
         <= 1)%nat)) /\
  (exists (w' : world Demo.state unit) (log : list (call Demo.state)),
     setState Demo.parent Demo.quiet Demo.B (Demo.machine Demo.A11 []) = Ret (tt, w', log)).
Proof.
  destruct (setState_exits_all_iff Demo.parent Demo.quiet (Demo.machine Demo.A11 [])
              Demo.A11 Demo.B [Demo.A11; Demo.A1; Demo.A; Demo.Root] [Demo.B; Demo.Root])
    as [Hinv Hret]; try reflexivity.
  - discriminate.
  - split; [exact Hinv|]. apply Hret; [apply quiet_is_sound | apply machine_queue_wf].
Defined.

Lemma setState_deep_chain_witness :
  setState Tower.parent Tower.quiet 0%nat (Tower.machine 16%nat) = OutOfBounds.
Proof.
  apply (setState_deep_chain Tower.parent Tower.quiet (Tower.machine 16%nat) 16%nat 0%nat);
    try reflexivity.
  - discriminate.
  - left. reflexivity.
Defined.

Lemma processHSM_in_order_witness :
  exists w' : world Demo.state unit,
    processHSM Demo.quiet 4 0 (Demo.machine Demo.A1 [3; 4; 5]) =
      Ret (tt, w',
           map (fun e => Handler (currentState (hsm (Demo.machine Demo.A1 [3; 4; 5]))) e)
               (Queue.contents (eventQueue (hsm (Demo.machine Demo.A1 [3; 4; 5]))))) /\
    currentState (hsm w') = currentState (hsm (Demo.machine Demo.A1 [3; 4; 5])) /\
    Queue.contents (eventQueue (hsm w')) = [].
Proof.
  apply (processHSM_in_order Demo.quiet (Demo.machine Demo.A1 [3; 4; 5]) 4 0).
  - reflexivity.
  - apply demo_queue_wf.
  - vm_compute. lia.
Defined.

Lemma processHSM_kept_busy_witness :
  processHSM Busy.echo 40 0 (Demo.machine Demo.A1 [Demo.GO]) = OutOfFuel.
Proof.
  apply (processHSM_kept_busy Busy.echo (Demo.machine Demo.A1 [Demo.GO]) 40 0).
  - apply echo_keeps_busy.
  - apply demo_queue_wf.
  - reflexivity.
Defined.

Lemma sendEvent_then_processHSM_witness :
  exists w1 w' : world Demo.state unit,
    sendEvent 5 (Demo.machine Demo.A1 [3; 4])
      = Ret (tt, w1, [DisableIrq; PutEvent 5 QUEUE_OK; EnableIrq]) /\
    processHSM Demo.quiet 4 0 w1 =
      Ret (tt, w',
           map (fun x => Handler (currentState (hsm (Demo.machine Demo.A1 [3; 4]))) x)
               (Queue.contents (eventQueue (hsm (Demo.machine Demo.A1 [3; 4]))) ++ [5])) /\
    Queue.contents (eventQueue (hsm w')) = [].
Proof.
  apply (sendEvent_then_processHSM Demo.quiet (Demo.machine Demo.A1 [3; 4]) 5 4 0).
  - reflexivity.
  - apply demo_queue_wf.
  - reflexivity.
  - vm_compute. lia.
Defined.

End MoreRuns.

Section QueueMoreRuns.

Import Queue.

Lemma queue_ops_keep_wf_witness :
  (forall e : event_t,
     exists (r : eventQueueError_t) (q' : eventQueue_t),
       putEvent (initEventQueue [0; 0; 0; 0] 4) e = Ret (r, q') /\ wf q' /\
       length q' = length (initEventQueue [0; 0; 0; 0] 4) /\
       List.length (queue q') = List.length (queue (initEventQueue [0; 0; 0; 0] 4)) /\
       tail q' = tail (initEventQueue [0; 0; 0; 0] 4)) /\
  (forall ev : event_t,
     exists (r : eventQueueError_t) (q' : eventQueue_t) (e : event_t),
       getEvent (initEventQueue [0; 0; 0; 0] 4) ev = Ret (r, q', e) /\ wf q' /\
       length q' = length (initEventQueue [0; 0; 0; 0] 4) /\
       queue q' = queue (initEventQueue [0; 0; 0; 0] 4) /\
       head q' = head (initEventQueue [0; 0; 0; 0] 4)).
Proof.
  apply (queue_ops_keep_wf (initEventQueue [0; 0; 0; 0] 4)).
  apply wf_initEventQueue; simpl; lia.
Defined.

Lemma queue_ops_contents_witness :
  exists q' : eventQueue_t,
    putEvent (initEventQueue [0; 0; 0; 0] 4) 7 = Ret (QUEUE_OK, q') /\
    contents q' = contents (initEventQueue [0; 0; 0; 0] 4) ++ [7].
Proof.
  apply (proj1 (queue_ops_contents (initEventQueue [0; 0; 0; 0] 4)
                  ltac:(apply wf_initEventQueue; simpl; lia)) 7).
  reflexivity.
Defined.

Lemma buffer_beyond_length_untouched_witness :
  exists (xs : list obs) (q' : eventQueue_t),
    run (initEventQueue [0; 0; 0; 9; 9] 3) [Push 1; Push 2; Push 3; Pop; Push 4]
      = Ret (xs, q') /\
    forall i : nat,
      (3 <= i)%nat ->
      queue q' !! i = queue (initEventQueue [0; 0; 0; 9; 9] 3) !! i.
Proof.
  apply (buffer_beyond_length_untouched [Push 1; Push 2; Push 3; Pop; Push 4]
           (initEventQueue [0; 0; 0; 9; 9] 3)).
  apply wf_initEventQueue; simpl; lia.
Defined.

Lemma zero_length_queue_witness :
  exists (xs : list obs) (q0 q1 : eventQueue_t),
    run (initEventQueue [0; 0] 0) [Push 1; Push 2; Pop; Pop] = Ret (xs, q0) /\
    run (initEventQueue [0; 0] 1) [Push 1; Push 2; Pop; Pop] = Ret (xs, q1) /\
    queue q0 = queue q1.
Proof.
  apply (proj2 zero_length_queue [0; 0] [Push 1; Push 2; Pop; Pop]).
  discriminate.
Defined.

End QueueMoreRuns.
